(** * Shallow embedding of the Hey-Mentra voice assistant orchestration core

    Sources: [src/src/index.ts] (classes [HeyMentraVoiceAssistantLive] and
    [HeyMentraVoiceAssistant]) and [src/src/index_stable_backup.ts].

    Modelling conventions.
    - JavaScript strings are [String.string]; [toLowerCase] and [trim] are
      modelled on their ASCII behaviour.
    - Per-user [Map]s are stdpp [gmap string _].
    - Remote calls (Gemini, camera, TTS) are inputs: the outcome of each
      attempt is supplied by an environment function indexed by the attempt
      number, so every combination of outcomes is quantified over.
    - Asynchronous code is cut at its [await] points; each synchronous
      segment between two awaits is one atomic step. *)

From Stdlib Require Import String Ascii List Bool Lia NArith ZArith.
From stdpp Require Import base gmap strings list pretty.
Import ListNotations.
Open Scope string_scope.

(* ------------------------------------------------------------------ *)
(** ** JavaScript string primitives (ASCII) *)

Module JsString.

(** Characters removed by [String.prototype.trim] (ASCII subset). *)
Definition is_ws (c : ascii) : bool :=
  existsb (Ascii.eqb c) [" "%char; "009"%char; "010"%char; "011"%char; "012"%char; "013"%char].

(** [trimStart] *)
Fixpoint ltrim (s : string) : string :=
  match s with
  | EmptyString => EmptyString
  | String c s' => if is_ws c then ltrim s' else s
  end.

(** [trimEnd] *)
Fixpoint rtrim (s : string) : string :=
  match s with
  | EmptyString => EmptyString
  | String c s' =>
      let r := rtrim s' in
      match r with
      | EmptyString => if is_ws c then EmptyString else String c EmptyString
      | _ => String c r
      end
  end.

(** [s.trim()] *)
Definition trim (s : string) : string := rtrim (ltrim s).

(** [toLowerCase] on one ASCII character. *)
Definition lower_char (c : ascii) : ascii :=
  let n := nat_of_ascii c in
  if (65 <=? n)%nat && (n <=? 90)%nat then ascii_of_nat (n + 32)%nat else c.

(** [s.toLowerCase()] *)
Fixpoint lower (s : string) : string :=
  match s with
  | EmptyString => EmptyString
  | String c s' => String (lower_char c) (lower s')
  end.

(** [s.startsWith(w)], argument order [prefixb w s]. *)
Fixpoint prefixb (w s : string) : bool :=
  match w, s with
  | EmptyString, _ => true
  | String a w', String b s' => Ascii.eqb a b && prefixb w' s'
  | String _ _, EmptyString => false
  end.

(** [s.includes(w)] *)
Fixpoint includes (s w : string) : bool :=
  prefixb w s ||
  match s with
  | EmptyString => false
  | String _ s' => includes s' w
  end.

End JsString.

Import JsString.

(* ------------------------------------------------------------------ *)
(** ** Parallel capture + inference orchestrator
    ([HeyMentraVoiceAssistant] in [src/src/index.ts]:
    [safeTextOnlyProcessing], [safeVisionProcessing], [processResults],
    [executeParallelOperations]) *)

Module Orchestrator.

(** Outcome of one [Promise.race([model.generateContent(..), timer])]:
    the response text, or a rejection (remote error or timeout). *)
Inductive remote :=
| RemoteText (text : string)
| RemoteError (message : string).

(** Remote inference calls issued, in order. *)
Inductive call :=
| TextCall (attempt : nat)
| VisionCall (attempt : nat).

(** Result of [Promise.allSettled] for one branch. *)
Inductive settled (A : Type) :=
| Fulfilled (value : A)
| Rejected.
Arguments Fulfilled {A} _.
Arguments Rejected {A}.

Record PhotoData := { mimeType : string; buffer : list Byte.byte }.

Definition maxRetries : nat := 2.

(** [if (text && text.trim().length > 0)] *)
Definition usable (text : string) : bool :=
  negb (String.eqb (trim text) "").

(** One attempt: [Some text] when it returned a usable text, [None] when it
    rejected, timed out or threw ['Empty response ...']. *)
Definition attempt_result (r : remote) : option string :=
  match r with
  | RemoteText t => if usable t then Some t else None
  | RemoteError _ => None
  end.

Definition text_exhausted : string := "I'm ready to help! What would you like to know?".
Definition text_after_loop : string := "I'm here to help! Could you repeat your question?".
Definition final_fallback : string := "I'm ready to help! Could you try asking your question again?".

(** The [for (attempt = ..; attempt <= maxRetries; ..)] loop of
    [safeTextOnlyProcessing]; [remaining] counts the iterations left. *)
Fixpoint text_loop (env : nat -> remote) (attempt remaining : nat) : string * list call :=
  match remaining with
  | O => (text_after_loop, [])
  | S r =>
      match attempt_result (env attempt) with
      | Some t => (t, [TextCall attempt])
      | None =>
          if Nat.eqb attempt maxRetries then (text_exhausted, [TextCall attempt])
          else let '(s, cs) := text_loop env (S attempt) r in (s, TextCall attempt :: cs)
      end
  end.

(** [safeTextOnlyProcessing(question)]: answer and the text calls made. *)
Definition safeTextOnlyProcessing (env : nat -> remote) : string * list call :=
  text_loop env 1 maxRetries.

(** [photo.buffer.toString('base64').length] *)
Definition base64_length (n : N) : N := (4 * ((n + 2) / 3))%N.

Definition image_too_large (p : PhotoData) : bool :=
  (1000000 <? base64_length (N.of_nat (length (buffer p))))%N.

(** The retry loop of [safeVisionProcessing]. [envT] answers the text-only
    calls this function makes itself. *)
Fixpoint vision_loop (envV envT : nat -> remote) (p : PhotoData)
    (attempt remaining : nat) : string * list call :=
  match remaining with
  | O => safeTextOnlyProcessing envT
  | S r =>
      if image_too_large p then safeTextOnlyProcessing envT
      else
        match attempt_result (envV attempt) with
        | Some t => (t, [VisionCall attempt])
        | None =>
            if Nat.eqb attempt maxRetries then
              let '(s, cs) := safeTextOnlyProcessing envT in (s, VisionCall attempt :: cs)
            else
              let '(s, cs) := vision_loop envV envT p (S attempt) r in
              (s, VisionCall attempt :: cs)
        end
  end.

Definition safeVisionProcessing (envV envT : nat -> remote) (p : PhotoData) : string * list call :=
  vision_loop envV envT p 1 maxRetries.

(** [processResults([photoResult, textOnlyResult], ..)]. [safeVisionProcessing]
    never rejects, so the [catch] around it is never entered. *)
Definition processResults (photoResult : settled (option PhotoData))
    (textOnlyResult : settled string) (envV envT : nat -> remote) : string * list call :=
  match photoResult with
  | Fulfilled (Some p) => safeVisionProcessing envV envT p
  | _ =>
      match textOnlyResult with
      | Fulfilled s => (s, [])
      | Rejected => (final_fallback, [])
      end
  end.

(** [executeParallelOperations] followed by [processResults]: the photo
    capture and the step-1 text call ([envT1]) run concurrently; [envV] and
    [envT2] answer the calls made afterwards. Returns the final response and
    all inference calls (step 1 first). *)
Definition orchestrate (photo : option PhotoData) (envT1 envV envT2 : nat -> remote)
    : string * list call :=
  let '(t1, cs1) := safeTextOnlyProcessing envT1 in
  let '(r, cs2) := processResults (Fulfilled photo) (Fulfilled t1) envV envT2 in
  (r, (cs1 ++ cs2)%list).

End Orchestrator.

(* ------------------------------------------------------------------ *)
(** ** Wake/listening state machine with silence detection
    ([src/src/index_stable_backup.ts], the [onTranscription] handler set
    up in [onSession], with [resetListeningState] and [detectWakeWord]) *)

Module Listening.

Open Scope Z_scope.

(** The per-user record of [listeningStates] (the [session] handle is the
    same for every event of one session and is left out). *)
Record ListeningState := {
  isListening : bool;
  timestamp : Z;
  lastVoiceActivity : Z;
  silenceStartTime : Z;
  hasSpokenSinceWakeWord : bool
}.

Definition SILENCE_TIMEOUT : Z := 2500.
Definition MAX_LISTENING_TIMEOUT : Z := 45000.
Definition VOICE_ACTIVITY_THRESHOLD : nat := 3.

Definition ack_msg : string := "I'm listening, how can I help?".
Definition timeout_msg : string := "Listening timeout. Say 'Hey Mentra' to try again.".
Definition giveup_msg : string := "I didn't hear anything. Say 'Hey Mentra' to try again.".

(** Observable effects of one handler run, in order: a scheduled
    [speakWithRetry(session, msg)] or a scheduled [processRequest(question)]. *)
Inductive effect :=
| Speak (msg : string)
| Dispatch (question : string).

Definition wakeWords : list string :=
  [ "hey mentra"; "heyy mentra"; "hey mentraaa"; "hey mentra buddy"; "hey there mentra";
    "hey mentra please"; "hey mentra now";
    "he mentra"; "hementra"; "hamentra"; "hem entra"; "hai mentra"; "hay mentra";
    "heymantra"; "hey mantra"; "hey mantraa"; "aye mentra"; "hi mentra";
    "hemantra"; "huh mentra"; "hae mentra"; "hae mantra"; "hee mentra";
    "hey mentor"; "hey mantra"; "hey manta"; "hey mental"; "a man try"; "hey mancha";
    "hey mendra"; "a mentor"; "hey matra"; "hey mentee"; "hey mantraa";
    "hey mendra"; "aye mantra";
    "h'mentra"; "aymentra"; "aymenta"; "hemtra"; "hementa"; "ammentra";
    "yamentra"; "h'mentra"; "aymentrah"; "haimen" ].

(** [detectWakeWord(text)] *)
Definition detectWakeWord (text : string) : bool :=
  existsb (fun w => includes text w) wakeWords.

(** [resetListeningState(userId)]: a NEW record is stored; a reference to
    the old record held by the caller is not changed. *)
Definition resetListeningState (st : option ListeningState) (now : Z) : option ListeningState :=
  match st with
  | Some _ => Some {| isListening := false; timestamp := 0; lastVoiceActivity := now;
                      silenceStartTime := 0; hasSpokenSinceWakeWord := false |}
  | None => None
  end.

Definition is_listening (st : option ListeningState) : bool :=
  match st with Some ls => isListening ls | None => false end.

(** The record stored on wake-word detection. *)
Definition woken (now : Z) : ListeningState :=
  {| isListening := true; timestamp := now; lastVoiceActivity := now;
     silenceStartTime := 0; hasSpokenSinceWakeWord := false |}.

(** The silence branch, run on the record [ls] held in the local
    [listeningState]: it is mutated in place before the timeout check. *)
Definition silence_branch (ls : ListeningState) (now : Z) : option ListeningState * list effect :=
  let ls1 :=
    if hasSpokenSinceWakeWord ls && (silenceStartTime ls =? 0)
    then {| isListening := isListening ls; timestamp := timestamp ls;
            lastVoiceActivity := lastVoiceActivity ls; silenceStartTime := now;
            hasSpokenSinceWakeWord := hasSpokenSinceWakeWord ls |}
    else ls in
  if 0 <? silenceStartTime ls1 then
    if SILENCE_TIMEOUT <=? now - silenceStartTime ls1 then
      (resetListeningState (Some ls1) now,
       (* [listeningState] still names the old (mutated) record *)
       if negb (hasSpokenSinceWakeWord ls1) then [Speak giveup_msg] else [])
    else (Some ls1, [])
  else (Some ls1, []).

(** One run of the [onTranscription] callback for [data = {text, isFinal}]
    received at time [now], on the user's entry [st] of [listeningStates]. *)
Definition onTranscription (st : option ListeningState) (text : string) (isFinal : bool)
    (now : Z) : option ListeningState * list effect :=
  let spokenText := trim (lower text) in
  if isFinal && negb (is_listening st) then
    if detectWakeWord spokenText then (Some (woken now), [Speak ack_msg])
    else (st, [])
  else
    match st with
    | Some ls =>
        if isListening ls then
          if MAX_LISTENING_TIMEOUT <? now - timestamp ls then
            (resetListeningState st now, [Speak timeout_msg])
          else if (VOICE_ACTIVITY_THRESHOLD <=? String.length spokenText)%nat then
            let ls' := {| isListening := isListening ls; timestamp := timestamp ls;
                          lastVoiceActivity := now; silenceStartTime := 0;
                          hasSpokenSinceWakeWord := true |} in
            if isFinal && (0 <? String.length spokenText)%nat then
              (resetListeningState (Some ls') now, [Dispatch spokenText])
            else (Some ls', [])
          else silence_branch ls now
        else (st, [])
    | None => (st, [])
    end.

(** The [setTimeout(.., MAX_LISTENING_TIMEOUT)] callback armed on wake: it
    compares the stored timestamp with itself, so it resets whenever the
    user is listening. *)
Definition onMaxTimer (st : option ListeningState) (now : Z) : option ListeningState * list effect :=
  match st with
  | Some ls =>
      if isListening ls && (timestamp ls =? timestamp ls)
      then (resetListeningState st now, [Speak timeout_msg])
      else (st, [])
  | None => (st, [])
  end.

(** Inputs of the listening machine. *)
Inductive input :=
| Transcription (text : string) (isFinal : bool) (now : Z)
| MaxTimer (now : Z).

Definition step (st : option ListeningState) (i : input) : option ListeningState * list effect :=
  match i with
  | Transcription t f now => onTranscription st t f now
  | MaxTimer now => onMaxTimer st now
  end.

(** Runs a sequence of inputs, collecting the effects in order. *)
Fixpoint run (st : option ListeningState) (is : list input) : option ListeningState * list effect :=
  match is with
  | [] => (st, [])
  | i :: rest =>
      let '(st1, e1) := step st i in
      let '(st2, e2) := run st1 rest in
      (st2, (e1 ++ e2)%list)
  end.

(** The record [onSession] stores before the first event. *)
Definition initial (now : Z) : option ListeningState :=
  Some {| isListening := false; timestamp := 0; lastVoiceActivity := now;
          silenceStartTime := 0; hasSpokenSinceWakeWord := false |}.

End Listening.

(* ------------------------------------------------------------------ *)
(** ** Transcription handling with a live session
    ([HeyMentraVoiceAssistantLive] in [src/src/index.ts]:
    [handleTranscription], [detectStopWord], [detectWakeWord],
    [hasActiveLiveSession], [closeLiveSession]) *)

Module LiveTranscription.

(** The part of a [liveSessions] entry the handler reads. *)
Record LiveState := {
  isActive : bool;
  hasGeminiSession : bool   (* [liveState.session] is set *)
}.

(** Per-user state read by the handler: [liveSessions.get(userId)] and
    whether [listeningStates.get(userId)?.session] is set. *)
Record UserState := {
  liveSession : option LiveState;
  listeningSession : bool
}.

(** Observable actions of one [handleTranscription] run, in order. *)
Inductive action :=
| BroadcastTranscription (text : string)
| SpeakTTS (msg : string)              (* [await speakWithTTS(session, msg, userId)] *)
| CloseLiveSession                     (* [await closeLiveSession(userId)] *)
| ForwardToLive (text : string)        (* photo capture + [sendClientContent] *)
| StartLiveSession.                    (* [await startLiveSession(userId, session)] *)

Definition goodbye_msg : string :=
  "You're welcome! I'm here whenever you need me. Just say 'Hey Mentra' to start again.".

Definition stopWords : list string :=
  [ "thanks mentra"; "thank you mentra"; "that's all for now"; "that's all"; "that's it";
    "that's enough"; "that's fine"; "that's good"; "that's perfect";
    "thanks"; "thank you"; "bye mentra"; "goodbye mentra"; "see you mentra";
    "done"; "finished"; "complete"; "all done"; "we're done"; "i'm done";
    "bye"; "goodbye"; "see you"; "see ya"; "later"; "catch you later";
    "that's all i need"; "that's everything"; "nothing else"; "no more";
    "stop"; "end"; "quit"; "exit" ].

(** [detectStopWord(text)] *)
Definition detectStopWord (text : string) : bool :=
  existsb (fun w => includes text w) stopWords.

Definition wakeWords : list string :=
  [ "hey mentra"; "heyy mentra"; "hey mentraaa"; "hey mentra buddy";
    "he mentra"; "hementra"; "hamentra"; "hai mentra"; "hay mentra";
    "hey mantra"; "hey mentor"; "hey manta"; "hey mental" ].

(** [detectWakeWord(text)] *)
Definition detectWakeWord (text : string) : bool :=
  existsb (fun w => includes text w) wakeWords.

(** [hasActiveLiveSession(userId)]: [liveState?.isActive === true]. *)
Definition hasActiveLiveSession (st : UserState) : bool :=
  match liveSession st with Some l => isActive l | None => false end.

(** [closeLiveSession] ends in [cleanupLiveSession], which deletes the
    [liveSessions] entry. *)
Definition closeLiveSession (st : UserState) : UserState :=
  {| liveSession := None; listeningSession := listeningSession st |}.

(** [handleTranscription(data, session, userId)] for [data = {text, isFinal}]. *)
Definition handleTranscription (st : UserState) (text : string) (isFinal : bool)
    : UserState * list action :=
  let spokenText := trim (lower text) in
  let broadcast :=
    if negb (String.eqb (trim text) "") then [BroadcastTranscription text] else [] in
  if hasActiveLiveSession st && isFinal && (0 <? String.length spokenText)%nat then
    if detectStopWord spokenText then
      (closeLiveSession st,
       (broadcast ++ (if listeningSession st then [SpeakTTS goodbye_msg] else [])
                  ++ [CloseLiveSession])%list)
    else
      match liveSession st with
      | Some l => if hasGeminiSession l then (st, (broadcast ++ [ForwardToLive text])%list)
                  else (st, broadcast)
      | None => (st, broadcast)
      end
  else if negb (hasActiveLiveSession st) && isFinal && detectWakeWord spokenText then
    (st, (broadcast ++ [StartLiveSession])%list)
  else (st, broadcast).

End LiveTranscription.

(* ------------------------------------------------------------------ *)
(** ** Request queue and scheduler
    ([HeyMentraVoiceAssistant] in [src/src/index.ts]: [processRequest],
    [processQueueAsync]) *)

Module RequestQueue.

(** An element of [requestQueue] ([session] is an opaque handle). *)
Record Request := {
  question : string;
  userId : string;
  enqueuedAt : Z
}.

(** Observable scheduler events: a request dequeued and handed to the
    orchestrator, and that processing reaching the [finally] block. *)
Inductive event :=
| Started (r : Request)
| Finished (r : Request).

(** [requestQueue], [isProcessingRequest], the request held by the running
    [processQueueAsync] invocation, the number of scheduled
    [setImmediate(() => this.processQueueAsync())] callbacks not yet run, and
    the event log. *)
Record QState := {
  requestQueue : list Request;
  isProcessingRequest : bool;
  inFlight : option Request;
  pendingImmediates : nat;
  log : list event
}.

Definition init : QState :=
  {| requestQueue := []; isProcessingRequest := false; inFlight := None;
     pendingImmediates := 0; log := [] |}.

(** The synchronous prefix of [processQueueAsync()], up to its first [await]:
    [if (requestQueue.length === 0 || isProcessingRequest) return;
     isProcessingRequest = true; const request = requestQueue.shift()!]. *)
Definition processQueueAsync (s : QState) : QState :=
  match requestQueue s, isProcessingRequest s with
  | r :: rest, false =>
      {| requestQueue := rest; isProcessingRequest := true; inFlight := Some r;
         pendingImmediates := pendingImmediates s; log := (log s ++ [Started r])%list |}
  | _, _ => s
  end.

(** The synchronous prefix of [processRequest(question, session, userId)]:
    push, then [if (!isProcessingRequest) await this.processQueueAsync()]. *)
Definition processRequest (r : Request) (s : QState) : QState :=
  let s1 := {| requestQueue := (requestQueue s ++ [r])%list;
               isProcessingRequest := isProcessingRequest s; inFlight := inFlight s;
               pendingImmediates := pendingImmediates s; log := log s |} in
  if negb (isProcessingRequest s1) then processQueueAsync s1 else s1.

(** The [finally] block of the running invocation, reached after the
    [try] or the [catch] branch:
    [isProcessingRequest = false; if (requestQueue.length > 0) setImmediate(..)]. *)
Definition finishCurrent (s : QState) : QState :=
  match inFlight s with
  | Some r =>
      {| requestQueue := requestQueue s; isProcessingRequest := false; inFlight := None;
         pendingImmediates :=
           match requestQueue s with [] => pendingImmediates s | _ => S (pendingImmediates s) end;
         log := (log s ++ [Finished r])%list |}
  | None => s
  end.

(** One scheduled [setImmediate] callback runs [processQueueAsync()]. *)
Definition runImmediate (s : QState) : QState :=
  match pendingImmediates s with
  | S p =>
      processQueueAsync
        {| requestQueue := requestQueue s; isProcessingRequest := isProcessingRequest s;
           inFlight := inFlight s; pendingImmediates := p; log := log s |}
  | O => s
  end.

(** Inputs: a caller enqueues, the running request completes (success or
    error), or the event loop runs a scheduled callback. *)
Inductive input :=
| Enqueue (r : Request)
| Complete
| RunImmediate.

Definition step (s : QState) (i : input) : QState :=
  match i with
  | Enqueue r => processRequest r s
  | Complete => finishCurrent s
  | RunImmediate => runImmediate s
  end.

Definition run (ins : list input) : QState := fold_left step ins init.

(** The requests passed to [processRequest], in call order. *)
Fixpoint enqueued (ins : list input) : list Request :=
  match ins with
  | [] => []
  | Enqueue r :: rest => r :: enqueued rest
  | _ :: rest => enqueued rest
  end.

(** Strictly sequential processing of [done]: start, finish, start, ... *)
Definition sequential (done : list Request) : list event :=
  flat_map (fun r => [Started r; Finished r]) done.

Definition opt_list {A} (o : option A) : list A :=
  match o with Some x => [x] | None => [] end.

Definition is_some {A} (o : option A) : bool :=
  match o with Some _ => true | None => false end.

Definition is_enqueue (i : input) : bool :=
  match i with Enqueue _ => true | _ => false end.

End RequestQueue.

(* ------------------------------------------------------------------ *)
(** ** Cancellation-aware speech output
    ([HeyMentraVoiceAssistantLive.speakWithTTS] in [src/src/index.ts]; the
    same code is [speakResponseWithCancellation] in
    [src/src/index_stable_backup.ts]) *)

Module TTS.

(** How a call ended. *)
Inductive outcome :=
| Spoken        (* [result.success]: the utterance was spoken *)
| Cancelled     (* returned on an abort check or on ['TTS cancelled'] *)
| ShownText     (* fallback [showTextWall('AI: ' + text)] *)
| LoopExit.     (* the [for] loop ran out (no attempt left) *)

(** How the [Promise.race] of an attempt settled. *)
Inductive race :=
| SpeakResult (success : bool) (error : string)   (* [session.audio.speak] resolved *)
| RaceReject (message : string).                  (* a rejection of the race *)

(** Where an invocation is suspended. [Racing a (Some r)]: the race of
    attempt [a] has settled with [r], its continuation has not run yet. *)
Inductive phase :=
| Racing (attempt : nat) (settledWith : option race)
| Backoff (attempt : nat)
| Done (o : outcome).

(** One [speakWithTTS(session, text, userId)] invocation; its
    [AbortController] is identified with the invocation's index. *)
Record Task := {
  tuser : string;
  ttext : string;
  tphase : phase
}.

(** [activeTTSOperations], the aborted controllers, and the invocations. *)
Record TTSState := {
  activeTTSOperations : gmap string nat;
  abortedCtrls : list nat;
  tasks : list Task
}.

Definition init : TTSState :=
  {| activeTTSOperations := ∅; abortedCtrls := []; tasks := [] |}.

Definition maxRetries : nat := 2.
Definition cancelled_msg : string := "TTS cancelled".
Definition timeout_message (attempt : nat) : string :=
  "TTS timeout attempt " ++ String (ascii_of_nat (48 + attempt)) EmptyString.

Definition is_aborted (s : TTSState) (c : nat) : bool :=
  existsb (Nat.eqb c) (abortedCtrls s).

Definition with_phase (t : Task) (p : phase) : Task :=
  {| tuser := tuser t; ttext := ttext t; tphase := p |}.

(** [controller.abort()]: the abort listener of a pending race rejects it
    with ['TTS cancelled'] (the continuation runs later). *)
Definition abort_task (c : nat) (i : nat) (t : Task) : Task :=
  if Nat.eqb i c then
    match tphase t with
    | Racing a None => with_phase t (Racing a (Some (RaceReject cancelled_msg)))
    | _ => t
    end
  else t.

Definition abort (c : nat) (s : TTSState) : TTSState :=
  {| activeTTSOperations := activeTTSOperations s;
     abortedCtrls := c :: abortedCtrls s;
     tasks := imap (abort_task c) (tasks s) |}.

Definition set_task (i : nat) (t : Task) (s : TTSState) : TTSState :=
  {| activeTTSOperations := activeTTSOperations s; abortedCtrls := abortedCtrls s;
     tasks := <[i := t]> (tasks s) |}.

(** A [return] inside the [try]; the [finally] block runs
    [activeTTSOperations.delete(userId)]. *)
Definition finish (i : nat) (t : Task) (o : outcome) (s : TTSState) : TTSState :=
  {| activeTTSOperations := delete (tuser t) (activeTTSOperations s);
     abortedCtrls := abortedCtrls s;
     tasks := <[i := with_phase t (Done o)]> (tasks s) |}.

(** Top of the loop body for [attempt]: loop condition, abort check, then
    the race is started and awaited. *)
Definition loop_top (i : nat) (t : Task) (attempt : nat) (s : TTSState) : TTSState :=
  if Nat.leb attempt maxRetries then
    if is_aborted s i then finish i t Cancelled s
    else set_task i (with_phase t (Racing attempt None)) s
  else finish i t LoopExit s.

(** The [catch (error)] block. *)
Definition catch_block (i : nat) (t : Task) (attempt : nat) (msg : string) (s : TTSState) : TTSState :=
  if String.eqb msg cancelled_msg then finish i t Cancelled s
  else if Nat.eqb attempt maxRetries then finish i t ShownText s
  else set_task i (with_phase t (Backoff attempt)) s.

(** The continuation of [await Promise.race(..)]. *)
Definition after_race (i : nat) (t : Task) (attempt : nat) (r : race) (s : TTSState) : TTSState :=
  match r with
  | SpeakResult ok err =>
      if is_aborted s i then finish i t Cancelled s
      else if ok then finish i t Spoken s
      else catch_block i t attempt (if String.eqb err "" then "TTS failed" else err) s
  | RaceReject m => catch_block i t attempt m s
  end.

(** The synchronous prefix of [speakWithTTS(session, text, userId)]. *)
Definition speakWithTTS (u text : string) (s : TTSState) : TTSState :=
  let s1 := match activeTTSOperations s !! u with
            | Some c => abort c s
            | None => s
            end in
  let i := length (tasks s1) in
  let t := {| tuser := u; ttext := text; tphase := Racing 1 None |} in
  let s2 := {| activeTTSOperations := <[u := i]> (activeTTSOperations s1);
               abortedCtrls := abortedCtrls s1;
               tasks := (tasks s1 ++ [t])%list |} in
  loop_top i t 1 s2.

(** Inputs: a new call, the remote [speak] resolving, the 10 s timer
    rejecting (each followed at once by the continuation), or the
    continuation of an aborted race or of a finished back-off wait. *)
Inductive input :=
| Speak (u text : string)
| SpeakSettles (i : nat) (success : bool) (error : string)
| TimerFires (i : nat)
| Resume (i : nat).

Definition step (s : TTSState) (inp : input) : TTSState :=
  match inp with
  | Speak u text => speakWithTTS u text s
  | SpeakSettles i ok err =>
      match tasks s !! i with
      | Some t => match tphase t with
                  | Racing a None => after_race i t a (SpeakResult ok err) s
                  | _ => s
                  end
      | None => s
      end
  | TimerFires i =>
      match tasks s !! i with
      | Some t => match tphase t with
                  | Racing a None => after_race i t a (RaceReject (timeout_message a)) s
                  | _ => s
                  end
      | None => s
      end
  | Resume i =>
      match tasks s !! i with
      | Some t => match tphase t with
                  | Racing a (Some r) => after_race i t a r s
                  | Backoff a => loop_top i t (S a) s
                  | _ => s
                  end
      | None => s
      end
  end.

Definition run (s : TTSState) (ins : list input) : TTSState := fold_left step ins s.

(** An invocation is live when it has not returned and its controller is
    not aborted. *)
Definition live (s : TTSState) (i : nat) : bool :=
  match tasks s !! i with
  | Some t => match tphase t with Done _ => false | _ => negb (is_aborted s i) end
  | None => false
  end.

(** Invariants of the reachable states: attempts stay within
    [1 .. maxRetries] and a back-off is never entered after the last one. *)
Definition phase_ok (p : phase) : Prop :=
  match p with
  | Racing a _ => 1 <= a <= maxRetries
  | Backoff a => 1 <= a < maxRetries
  | Done _ => True
  end.

Definition not_done (p : phase) : Prop :=
  match p with Done _ => False | _ => True end.

(** Where an aborted invocation can be. *)
Definition cancel_phase (p : phase) : Prop :=
  match p with
  | Racing _ None => False
  | Racing _ (Some r) => r = RaceReject cancelled_msg
  | Backoff _ => True
  | Done o => o = Cancelled
  end.

(** A map entry names a pending invocation of its user; an aborted
    invocation is on its way to a cancellation return; a settled race whose
    continuation has not run was settled by an abort. *)
Record tinv (s : TTSState) : Prop := {
  ti_map : forall u c, activeTTSOperations s !! u = Some c ->
    exists t, tasks s !! c = Some t /\ tuser t = u /\ not_done (tphase t);
  ti_aborted : forall c t, tasks s !! c = Some t -> In c (abortedCtrls s) ->
    cancel_phase (tphase t);
  ti_settled : forall c t a r, tasks s !! c = Some t -> tphase t = Racing a (Some r) ->
    In c (abortedCtrls s);
  ti_bound : forall c, In c (abortedCtrls s) -> c < length (tasks s);
  ti_phase : forall c t, tasks s !! c = Some t -> phase_ok (tphase t)
}.

End TTS.

(* ------------------------------------------------------------------ *)
(** ** Conversation record store and dashboard endpoints
    ([src/src/index.ts]: [addConversationEntry], the history insertion of
    [processQueueAsync], and the [/api/conversations] and
    [/api/photo/:conversationId] routes of [setupWebviewRoutes]) *)

Module Conversations.

(** [status: 'processing' | 'completed' | 'error'] *)
Inductive conv_status := Processing | Completed | Error.

Record PhotoBlob := {
  requestId : string;
  photoMime : string;
  photoBuffer : list Byte.byte
}.

(** [ConversationEntry]; the mock [location] (floating-point coordinates) is
    not read by any code modelled here and is left out. *)
Record ConversationEntry := {
  id : string;
  timestamp : Z;
  userId : string;
  question : string;
  response : string;
  hasPhoto : bool;
  photoData : option PhotoBlob;
  processingTime : Z;
  status : conv_status;
  category : option string
}.

Definition MAX_HISTORY : nat := 50.

(** [if (userConversations.length > 50) userConversations.splice(50)] *)
Definition keepLast (l : list ConversationEntry) : list ConversationEntry :=
  if Nat.ltb MAX_HISTORY (length l) then firstn MAX_HISTORY l else l.

Definition user_conversations (conv : gmap string (list ConversationEntry)) (u : string)
    : list ConversationEntry :=
  default [] (conv !! u).

(** [addConversationEntry(userId, entry)]: [get(userId) || []], [unshift],
    [splice(50)], then [set]. *)
Definition addConversationEntry (u : string) (e : ConversationEntry)
    (conv : gmap string (list ConversationEntry)) : gmap string (list ConversationEntry) :=
  let l := e :: user_conversations conv u in
  <[u := keepLast l]> conv.

(** History insertion in [processQueueAsync]: [unshift], [set], then
    [splice(50)]. The map holds the very array that [splice] truncates
    afterwards, so the stored value is the truncated array. *)
Definition queueInsertConversation (u : string) (e : ConversationEntry)
    (conv : gmap string (list ConversationEntry)) : gmap string (list ConversationEntry) :=
  let userConversations := e :: user_conversations conv u in
  <[u := keepLast userConversations]> conv.

(** The two ways an entry is appended. *)
Inductive append :=
| FromQueue (u : string) (e : ConversationEntry)
| FromLive (u : string) (e : ConversationEntry).

Definition apply_append (conv : gmap string (list ConversationEntry)) (a : append)
    : gmap string (list ConversationEntry) :=
  match a with
  | FromQueue u e => queueInsertConversation u e conv
  | FromLive u e => addConversationEntry u e conv
  end.

Definition append_user (a : append) : string :=
  match a with FromQueue u _ | FromLive u _ => u end.
Definition append_entry (a : append) : ConversationEntry :=
  match a with FromQueue _ e | FromLive _ e => e end.

(** The entries appended for [u], oldest first. *)
Definition appended_for (u : string) (as_ : list append) : list ConversationEntry :=
  map append_entry (List.filter (fun a => String.eqb (append_user a) u) as_).

(** The per-entry object built by the [/api/conversations] route. *)
Record SanitizedEntry := {
  s_id : string;
  s_timestamp : Z;
  s_question : string;
  s_response : string;
  s_hasPhoto : bool;
  s_processingTime : Z;
  s_status : conv_status
}.

Definition sanitize (c : ConversationEntry) : SanitizedEntry :=
  {| s_id := id c; s_timestamp := timestamp c; s_question := question c;
     s_response := response c; s_hasPhoto := hasPhoto c;
     s_processingTime := processingTime c; s_status := status c |}.

(** HTTP responses of the two routes. *)
Inductive http_response :=
| Unauthorized                                   (* 401 *)
| NotFound                                       (* 404 *)
| Snapshot (conversations : list SanitizedEntry) (activeUsers : nat)
           (lastActivity : Z) (hasLiveSession : bool)
| Binary (contentType : string) (body : list Byte.byte).

(** [GET /api/conversations]; [activeUsers] maps a user to its
    [lastActivity], [liveActive] is [hasActiveLiveSession(userId)]. *)
Definition api_conversations (authUserId : option string)
    (conv : gmap string (list ConversationEntry)) (activeUsers : gmap string Z)
    (liveActive : string -> bool) : http_response :=
  match authUserId with
  | None => Unauthorized
  | Some u =>
      Snapshot (map sanitize (user_conversations conv u))
               (length (map_to_list activeUsers))
               (default 0%Z (activeUsers !! u))
               (liveActive u)
  end.

(** [GET /api/photo/:conversationId] *)
Definition api_photo (authUserId : option string) (conversationId : string)
    (conv : gmap string (list ConversationEntry)) : http_response :=
  match authUserId with
  | None => Unauthorized
  | Some u =>
      match find (fun c => String.eqb (id c) conversationId) (user_conversations conv u) with
      | Some c => match photoData c with
                  | Some p => Binary (photoMime p) (photoBuffer p)
                  | None => NotFound
                  end
      | None => NotFound
      end
  end.

(** Two entries that agree on everything but [photoData]. *)
Definition same_but_photo (a b : ConversationEntry) : Prop :=
  id a = id b /\ timestamp a = timestamp b /\ userId a = userId b /\
  question a = question b /\ response a = response b /\ hasPhoto a = hasPhoto b /\
  processingTime a = processingTime b /\ status a = status b /\ category a = category b.

End Conversations.

(* ------------------------------------------------------------------ *)
(** ** Guarded photo capture
    ([safePhotoCapture] of both classes in [src/src/index.ts]) *)

Module PhotoCapture.

Import Orchestrator.

(** The two implementations: [HeyMentraVoiceAssistantLive] (lines 881-920)
    and [HeyMentraVoiceAssistant] (lines 2534-2579). *)
Inductive variant := LiveVariant | StableVariant.

(** [activePhotoRequests] and [lastPhotoTime]. *)
Record PState := {
  activePhotoRequests : gmap string bool;
  lastPhotoTime : gmap string Z;
  resetTimers : list string   (* armed [setTimeout(.., 3000)] resets (live variant) *)
}.

(** Outcome of [await session.camera.requestPhoto()]. *)
Inductive camera := CameraPhoto (p : PhotoData) | CameraError (message : string).

(** Synchronous prefix of the call: the two guards, then
    [activePhotoRequests.set(userId, true)] inside the [try].
    [inr s'] means the call returned [null] at a guard. *)
Definition begin_capture (v : variant) (u : string) (now : Z) (s : PState) : PState + PState :=
  if default false (activePhotoRequests s !! u) then
    inr match v with
        | LiveVariant => {| activePhotoRequests := activePhotoRequests s;
                            lastPhotoTime := lastPhotoTime s;
                            resetTimers := (resetTimers s ++ [u])%list |}
        | StableVariant => s
        end
  else if (now - default 0 (lastPhotoTime s !! u) <? 2000)%Z then inr s
  else inl {| activePhotoRequests := <[u := true]> (activePhotoRequests s);
              lastPhotoTime := lastPhotoTime s; resetTimers := resetTimers s |}.

(** Continuation after the camera call settles at time [now]: the [try]
    returns the photo or the [catch] returns [null]; the [finally] block
    then runs [activePhotoRequests.set(userId, false)]. *)
Definition end_capture (u : string) (cam : camera) (now : Z) (s : PState)
    : PState * option PhotoData :=
  let '(s1, r) :=
    match cam with
    | CameraPhoto p =>
        ({| activePhotoRequests := activePhotoRequests s;
            lastPhotoTime := <[u := now]> (lastPhotoTime s);
            resetTimers := resetTimers s |}, Some p)
    | CameraError _ => (s, None)
    end in
  ({| activePhotoRequests := <[u := false]> (activePhotoRequests s1);
      lastPhotoTime := lastPhotoTime s1; resetTimers := resetTimers s1 |}, r).

(** A whole call [safePhotoCapture(session, userId)] made at [now] whose
    camera request settles at [later] with [cam]. *)
Definition safePhotoCapture (v : variant) (u : string) (now later : Z) (cam : camera)
    (s : PState) : PState * option PhotoData :=
  match begin_capture v u now s with
  | inr s' => (s', None)
  | inl s1 => end_capture u cam later s1
  end.

End PhotoCapture.

(* ------------------------------------------------------------------ *)
(** ** Step tracking ([index_stable_backup.ts]: [extractProjectInfo],
       [getOrCreateProject], [createStepEntry], [buildStepContext],
       [detectStepRequest], [detectStepContinuation], and the step block of
       [processQueueAsync]) *)

Module StepTracking.
Import JsString.

Inductive taskType := Tech | Repair | Household | Automotive | Coding | Creative | General.
Inductive safetyLevel := Low | Medium | High.

(** [s.substring(n)] *)
Definition str_drop (n : nat) (s : string) : string :=
  String.substring n (String.length s - n) s.

(** [s.replace(/alt1|alt2|.../i, '')]: the leftmost position where one of
    the alternatives matches (case-insensitively, tried in order) is cut
    out; nothing changes when there is no match. *)
Fixpoint replace_first_ci (alts : list string) (s : string) : string :=
  match List.find (fun a => prefixb a (lower s)) alts with
  | Some a => str_drop (String.length a) s
  | None =>
      match s with
      | EmptyString => EmptyString
      | String c s' => String c (replace_first_ci alts s')
      end
  end.

(** [name.replace(/^(a |an |the )/i, '')] *)
Definition strip_article (s : string) : string :=
  let l := lower s in
  if prefixb "a " l then str_drop 2 s
  else if prefixb "an " l then str_drop 3 s
  else if prefixb "the " l then str_drop 4 s
  else s.

(** [toUpperCase] on one ASCII character. *)
Definition upper_char (c : ascii) : ascii :=
  let n := nat_of_ascii c in
  if (97 <=? n)%nat && (n <=? 122)%nat then ascii_of_nat (n - 32)%nat else c.

(** [name.charAt(0).toUpperCase() + name.slice(1)] *)
Definition capitalize (s : string) : string :=
  match s with
  | EmptyString => EmptyString
  | String c s' => String (upper_char c) s'
  end.

Definition includes_any (q : string) (ws : list string) : bool :=
  existsb (includes q) ws.

Record ProjectInfo := { info_name : string; info_type : taskType; info_safety : safetyLevel }.

(** [extractProjectInfo(taskDescription)] *)
Definition extractProjectInfo (taskDescription : string) : ProjectInfo :=
  let q := lower taskDescription in
  let '(type, safety) :=
    if includes_any q ["website"; "app"; "code"; "program"] then (Coding, Low)
    else if includes_any q ["phone"; "computer"; "router"; "device"] then (Tech, Low)
    else if includes_any q ["car"; "engine"; "brake"; "oil"] then (Automotive, High)
    else if includes_any q ["electrical"; "fuse"; "outlet"; "wiring"] then (Repair, High)
    else if includes_any q ["tv"; "home"; "kitchen"; "bathroom"] then (Household, Low)
    else if includes_any q ["art"; "design"; "music"; "video"] then (Creative, Low)
    else (General, Low) in
  let name := taskDescription in
  let name := if includes q "build"
              then trim (replace_first_ci ["help me build"; "how to build"] taskDescription) else name in
  let name := if includes q "create"
              then trim (replace_first_ci ["help me create"; "how to create"] taskDescription) else name in
  let name := if includes q "make"
              then trim (replace_first_ci ["help me make"; "how to make"] taskDescription) else name in
  let name := if includes q "setup"
              then trim (replace_first_ci ["help me setup"; "how to setup"] taskDescription) else name in
  let name := if includes q "fix"
              then trim (replace_first_ci ["help me fix"; "how to fix"] taskDescription) else name in
  let name := trim (strip_article name) in
  let name := capitalize name in
  let name := if (String.length name <? 3)%nat then taskDescription else name in
  {| info_name := name; info_type := type; info_safety := safety |}.

(** [detectStepRequest(question)] *)
Definition stepKeywords : list string :=
  ["help me build"; "help me create"; "help me make"; "help me setup"; "help me configure";
   "help me install"; "help me fix"; "help me repair"; "help me change"; "help me replace";
   "how to build"; "how to create"; "how to make"; "how to setup"; "how to configure";
   "how to install"; "how to fix"; "how to repair"; "how to change"; "how to replace";
   "how do i"; "how can i"; "walk me through"; "guide me through"; "show me how";
   "step by step"; "tutorial"; "instructions"; "guide me"; "help me with";
   "put my phone in"; "change my tv"; "connect my"; "set up my"].

Definition detectStepRequest (question : string) : bool :=
  includes_any (lower question) stepKeywords.

(** [detectStepContinuation(question)] *)
Definition continuationKeywords : list string :=
  ["what's next"; "whats next"; "next step"; "what now"; "now what";
   "continue"; "keep going"; "what's the next step"; "what should i do next";
   "done"; "finished"; "completed"; "ready for next"; "next"; "ok"; "okay";
   "got it"; "did it"; "finished that"; "completed that"; "ready"].

Definition detectStepContinuation (question : string) : bool :=
  let q := trim (lower question) in
  let isExplicitContinuation := includes_any q continuationKeywords in
  let isShortResponse := (String.length q <? 15)%nat in
  isExplicitContinuation || isShortResponse.

(** Entries. Ids ([`step_${Date.now()}_${random}`], [`proj_...`]) are
    modelled as fresh numbers drawn from one counter; the photo buffer of
    a step is left out ([hasPhoto] is kept). A project's [steps] array
    holds the same objects as [userSteps]: it is modelled by their ids, so
    that the [isCompleted] update made through [userSteps] is seen by both. *)
Record StepEntry := {
  sid : nat;
  stepNumber : nat;
  suserId : string;
  action : string;
  sresponse : string;
  context : string;
  isCompleted : bool;
  projectId : nat;
  projectName : string;
  shasPhoto : bool;
  sprocessingTime : Z;
  sstatus : string
}.

Record ProjectEntry := {
  pid : nat;
  pname : string;
  puserId : string;
  description : string;
  ptaskType : taskType;
  startedAt : Z;
  lastUpdated : Z;
  steps : list nat;
  isActive : bool;
  tags : list taskType;
  totalSteps : nat;
  completedSteps : nat;
  psafetyLevel : safetyLevel
}.

Record STState := {
  userSteps : gmap string (list StepEntry);
  userProjects : gmap string (list ProjectEntry);
  activeProjects : gmap string nat;
  stepCounters : gmap nat nat;
  nextId : nat
}.

Definition st_init : STState :=
  {| userSteps := ∅; userProjects := ∅; activeProjects := ∅; stepCounters := ∅; nextId := 0 |}.

(** [this.userSteps.get(userId) || []] and the same for projects. *)
Definition steps_of (s : STState) (u : string) : list StepEntry := default [] (userSteps s !! u).
Definition projects_of (s : STState) (u : string) : list ProjectEntry := default [] (userProjects s !! u).

(** Mutating the first element satisfying [P] ([arr.find(P)] followed by
    assignments to the found object). *)
Fixpoint update_first {A} (P : A -> bool) (f : A -> A) (l : list A) : list A :=
  match l with
  | [] => []
  | x :: l' => if P x then f x :: l' else x :: update_first P f l'
  end.

(** [arr.slice(-n)] *)
Definition lastn {A} (n : nat) (l : list A) : list A := skipn (length l - n) l.

Definition nl : string := String (ascii_of_nat 10) EmptyString.
(** The separator between action and response in [buildStepContext]
    (the bytes of the source's template literal). *)
Definition step_sep : string :=
  String " " (String (ascii_of_nat 226) (String (ascii_of_nat 128) (String (ascii_of_nat 154)
  (String (ascii_of_nat 195) (String (ascii_of_nat 156) (String (ascii_of_nat 195)
  (String (ascii_of_nat 173) (String " " EmptyString)))))))).

(** [buildStepContext(userId, projectId?)] *)
Definition buildStepContext (s : STState) (userId : string) (projectId_opt : option nat) : string :=
  let us := steps_of s userId in
  let relevantSteps :=
    match projectId_opt with
    | Some p => List.filter (fun st => Nat.eqb (projectId st) p) us
    | None =>
        match activeProjects s !! userId with
        | Some a => List.filter (fun st => Nat.eqb (projectId st) a) us
        | None => lastn 3 us
        end
    end in
  match relevantSteps with
  | [] => "This is the first step of the project."
  | _ =>
      let recentSteps :=
        String.concat nl (map (fun st => "Step " ++ pretty (stepNumber st) ++ ": " ++ action st
                                          ++ step_sep ++ sresponse st) (lastn 3 relevantSteps)) in
      "Previous steps in this project:" ++ nl ++ recentSteps ++ nl ++ nl
        ++ "Continue with next logical step."
  end.

Definition set_projects (u : string) (ps : list ProjectEntry) (s : STState) : STState :=
  {| userSteps := userSteps s; userProjects := <[u := ps]> (userProjects s);
     activeProjects := activeProjects s; stepCounters := stepCounters s; nextId := nextId s |}.

Definition touch (now : Z) (p : ProjectEntry) : ProjectEntry :=
  {| pid := pid p; pname := pname p; puserId := puserId p; description := description p;
     ptaskType := ptaskType p; startedAt := startedAt p; lastUpdated := now; steps := steps p;
     isActive := isActive p; tags := tags p; totalSteps := totalSteps p;
     completedSteps := completedSteps p; psafetyLevel := psafetyLevel p |}.

Definition deactivate (p : ProjectEntry) : ProjectEntry :=
  {| pid := pid p; pname := pname p; puserId := puserId p; description := description p;
     ptaskType := ptaskType p; startedAt := startedAt p; lastUpdated := lastUpdated p; steps := steps p;
     isActive := false; tags := tags p; totalSteps := totalSteps p;
     completedSteps := completedSteps p; psafetyLevel := psafetyLevel p |}.

(** [getOrCreateProject(userId, taskDescription)]: the id of the project
    returned, and the new state. *)
Definition getOrCreateProject (userId taskDescription : string) (now : Z) (s : STState)
  : nat * STState :=
  let userProjects0 := projects_of s userId in
  let reuse :=
    match activeProjects s !! userId with
    | Some activeProjectId =>
        match List.find (fun p => Nat.eqb (pid p) activeProjectId) userProjects0 with
        | Some p => if isActive p then Some p else None
        | None => None
        end
    | None => None
    end in
  match reuse with
  | Some p =>
      (pid p, set_projects userId
                (update_first (fun q => Nat.eqb (pid q) (pid p)) (touch now) userProjects0) s)
  | None =>
      let projectInfo := extractProjectInfo taskDescription in
      let projectId := nextId s in
      let newProject :=
        {| pid := projectId; pname := info_name projectInfo; puserId := userId;
           description := taskDescription; ptaskType := info_type projectInfo;
           startedAt := now; lastUpdated := now; steps := []; isActive := true;
           tags := [info_type projectInfo]; totalSteps := 0; completedSteps := 0;
           psafetyLevel := info_safety projectInfo |} in
      (projectId,
       {| userSteps := userSteps s;
          userProjects := <[userId := (map deactivate userProjects0 ++ [newProject])%list]> (userProjects s);
          activeProjects := <[userId := projectId]> (activeProjects s);
          stepCounters := <[projectId := 0%nat]> (stepCounters s);
          nextId := S projectId |})
  end.

(** The fields of the conversation entry that [createStepEntry] reads. *)
Record ConvInfo := { c_hasPhoto : bool; c_processingTime : Z; c_status : string }.

(** [conversationEntry.stepNumber], [.projectId], [.isStepEntry] as set
    by [createStepEntry]. *)
Record ConvLink := { link_stepNumber : nat; link_projectId : nat; link_isStepEntry : bool }.

Definition add_step (st : StepEntry) (now : Z) (p : ProjectEntry) : ProjectEntry :=
  {| pid := pid p; pname := pname p; puserId := puserId p; description := description p;
     ptaskType := ptaskType p; startedAt := startedAt p; lastUpdated := now;
     steps := (steps p ++ [sid st])%list; isActive := isActive p; tags := tags p;
     totalSteps := stepNumber st; completedSteps := completedSteps p;
     psafetyLevel := psafetyLevel p |}.

Definition set_completed (n : nat) (p : ProjectEntry) : ProjectEntry :=
  {| pid := pid p; pname := pname p; puserId := puserId p; description := description p;
     ptaskType := ptaskType p; startedAt := startedAt p; lastUpdated := lastUpdated p;
     steps := steps p; isActive := isActive p; tags := tags p;
     totalSteps := totalSteps p; completedSteps := n; psafetyLevel := psafetyLevel p |}.

Definition mark_done (st : StepEntry) : StepEntry :=
  {| sid := sid st; stepNumber := stepNumber st; suserId := suserId st; action := action st;
     sresponse := sresponse st; context := context st; isCompleted := true;
     projectId := projectId st; projectName := projectName st; shasPhoto := shasPhoto st;
     sprocessingTime := sprocessingTime st; sstatus := sstatus st |}.

(** [createStepEntry(userId, action, response, project, conversationEntry)],
    [project] given by its id (the object is the one held in
    [userProjects]). *)
Definition createStepEntry (userId act resp : string) (projId : nat) (conv : ConvInfo)
  (now : Z) (s : STState) : StepEntry * ConvLink * STState :=
  let projName := match List.find (fun p => Nat.eqb (pid p) projId) (projects_of s userId) with
                  | Some p => pname p | None => "" end in
  let currentStepCount := default 0%nat (stepCounters s !! projId) in
  let n := S currentStepCount in
  let stepEntry :=
    {| sid := nextId s; stepNumber := n; suserId := userId; action := act; sresponse := resp;
       context := buildStepContext s userId (Some projId); isCompleted := false;
       projectId := projId; projectName := projName; shasPhoto := c_hasPhoto conv;
       sprocessingTime := c_processingTime conv; sstatus := c_status conv |} in
  let userSteps1 := (steps_of s userId ++ [stepEntry])%list in
  let projects1 := update_first (fun p => Nat.eqb (pid p) projId) (add_step stepEntry now)
                                (projects_of s userId) in
  let isPrev st := Nat.eqb (projectId st) projId && Nat.eqb (stepNumber st) (n - 1) in
  let '(userSteps2, projects2) :=
    if (1 <? n)%nat then
      match List.find isPrev userSteps1 with
      | Some _ => (update_first isPrev mark_done userSteps1,
                   update_first (fun p => Nat.eqb (pid p) projId) (set_completed (n - 1)) projects1)
      | None => (userSteps1, projects1)
      end
    else (userSteps1, projects1) in
  (stepEntry,
   {| link_stepNumber := n; link_projectId := projId; link_isStepEntry := true |},
   {| userSteps := <[userId := userSteps2]> (userSteps s);
      userProjects := <[userId := projects2]> (userProjects s);
      activeProjects := activeProjects s;
      stepCounters := <[projId := n]> (stepCounters s);
      nextId := S (nextId s) |}).

(** A completed request as seen by the step block of [processQueueAsync]. *)
Record StepCall := {
  call_user : string;
  call_question : string;
  call_response : string;
  call_conv : ConvInfo;
  call_now : Z
}.

(** The step block of [processQueueAsync] (after [finalResponse] is known). *)
Definition track_step (c : StepCall) (s : STState) : STState :=
  let q := call_question c in
  if detectStepRequest q || detectStepContinuation q then
    let '(projId, s1) := getOrCreateProject (call_user c) q (call_now c) s in
    let '(_, _, s2) := createStepEntry (call_user c) q (call_response c) projId
                         (call_conv c) (call_now c) s1 in
    s2
  else s.

Definition track_all (cs : list StepCall) (s : STState) : STState :=
  fold_left (fun s c => track_step c s) cs s.

(** [/api/steps]: [completedSteps: userSteps.filter(s => s.isCompleted).length]. *)
Definition api_completed (s : STState) (u : string) : nat :=
  length (List.filter isCompleted (steps_of s u)).

End StepTracking.


(* ------------------------------------------------------------------ *)
(** ** Spoken text of a buffered live response ([index.ts],
       [handleLiveTextResponse], the [maxTTSLength] block). Strings are
       sequences of characters, one per UTF-16 unit of the source. *)

Module TTSTruncation.

Definition maxTTSLength : nat := 300.

(** [s.lastIndexOf(c)]: the index of the last occurrence, or -1. *)
Fixpoint last_index_from (c : ascii) (s : string) (i acc : Z) : Z :=
  match s with
  | EmptyString => acc
  | String d s' => last_index_from c s' (i + 1) (if Ascii.eqb d c then i else acc)
  end.

Definition lastIndexOf (s : string) (c : ascii) : Z := last_index_from c s 0 (-1).

(** [s.split(c)] *)
Fixpoint split_on (c : ascii) (s : string) : list string :=
  match s with
  | EmptyString => [EmptyString]
  | String d s' =>
      let ws := split_on c s' in
      if Ascii.eqb d c then EmptyString :: ws
      else match ws with
           | w :: ws' => String d w :: ws'
           | [] => [String d EmptyString]
           end
  end.

(** [Math.max(truncated.lastIndexOf('.'), truncated.lastIndexOf('!'), truncated.lastIndexOf('?'))] *)
Definition lastSentenceEnd (truncated : string) : Z :=
  Z.max (Z.max (lastIndexOf truncated ".") (lastIndexOf truncated "!")) (lastIndexOf truncated "?").

(** [ttsText] computed from [completeResponse]. *)
Definition tts_text (completeResponse : string) : string :=
  if (maxTTSLength <? String.length completeResponse)%nat then
    let truncated := String.substring 0 maxTTSLength completeResponse in
    let lse := lastSentenceEnd truncated in
    if (100 <? lse)%Z then String.substring 0 (Z.to_nat lse + 1) truncated
    else
      let words := split_on " " truncated in
      String.concat " " (removelast words) ++ "."
  else completeResponse.

Definition is_term (c : ascii) : bool :=
  Ascii.eqb c "." || Ascii.eqb c "!" || Ascii.eqb c "?".

End TTSTruncation.


(* ------------------------------------------------------------------ *)
(** ** Retrying speech ([index.ts]: [speakResponseWithRetry],
       [speakWithRetry]) *)

Module SpeechRetry.

(** Outcome of one [Promise.race([session.audio.speak(msg), timer])]:
    [result.success] is true; the call resolved without success, rejected
    or threw; or the timer rejected first. *)
Inductive speak_result :=
| Spoken
| NotSpoken (error : string)
| TimedOut.

(** Calls made on the session, and the awaited pauses. *)
Inductive effect :=
| Speak (message : string)
| ShowTextWall (message : string) (durationMs : Z)
| Sleep (ms : Z).

Definition is_speak (e : effect) : bool := match e with Speak _ => true | _ => false end.
Definition is_show (e : effect) : bool := match e with ShowTextWall _ _ => true | _ => false end.

(** [speakResponseWithRetry(session, response)]; [env attempt] is the
    outcome of the attempt. [showFeedbackAsync] issues the [showTextWall]. *)
Definition response_maxRetries : nat := 2.

Fixpoint response_loop (env : nat -> speak_result) (response : string) (attempt remaining : nat)
  : list effect :=
  match remaining with
  | O => []
  | S r =>
      Speak response ::
      match env attempt with
      | Spoken => [ShowTextWall ("AI: " ++ response) 4000]
      | _ =>
          if Nat.eqb attempt response_maxRetries then [ShowTextWall ("AI: " ++ response) 6000]
          else Sleep 300 :: response_loop env response (S attempt) r
      end
  end.

Definition speakResponseWithRetry (env : nat -> speak_result) (response : string) : list effect :=
  response_loop env response 1 response_maxRetries.

(** [speakWithRetry(session, message, userId)] *)
Definition wake_maxRetries : nat := 3.

Fixpoint wake_loop (env : nat -> speak_result) (message : string) (attempt remaining : nat)
  : list effect :=
  match remaining with
  | O => []
  | S r =>
      Speak message ::
      match env attempt with
      | Spoken => []
      | _ =>
          if Nat.eqb attempt wake_maxRetries then []
          else Sleep 500 :: wake_loop env message (S attempt) r
      end
  end.

Definition speakWithRetry (env : nat -> speak_result) (message : string) : list effect :=
  wake_loop env message 1 wake_maxRetries.

End SpeechRetry.


(* ------------------------------------------------------------------ *)
(** ** Server-sent events ([index.ts]: the [/api/events] route of
       [setupWebviewRoutes], and [broadcastSSE]) *)

Module SSE.

(** [sseClients]: one response object per user key, a response object
    being modelled by a connection number. [handlers] records, for each
    connection, the [userId] captured by its [req.on('close', ..)]
    handler. *)
Record SSEState := {
  sseClients : gmap string nat;
  handlers : gmap nat string;
  nextConn : nat
}.

Definition sse_init : SSEState := {| sseClients := ∅; handlers := ∅; nextConn := 0 |}.

Inductive event :=
| Connect (authUserId : option string)   (* GET /api/events *)
| Close (conn : nat)                     (* the request's 'close' event *)
| Broadcast (userId : string) (data : string) (writeThrows : bool).  (* broadcastSSE *)

Inductive output :=
| Greeting (conn : nat) (userId : string)          (* {type: 'connected', userId} *)
| Delivered (conn : nat) (userId : string) (data : string).

(** [(req as AuthenticatedRequest).authUserId || 'anonymous'] *)
Definition sse_key (authUserId : option string) : string :=
  match authUserId with
  | Some u => if String.eqb u "" then "anonymous" else u
  | None => "anonymous"
  end.

Definition step (s : SSEState) (e : event) : SSEState * list output :=
  match e with
  | Connect a =>
      let userId := sse_key a in
      let c := nextConn s in
      ({| sseClients := <[userId := c]> (sseClients s); handlers := <[c := userId]> (handlers s);
          nextConn := S c |}, [Greeting c userId])
  | Close c =>
      match handlers s !! c with
      | Some userId =>
          ({| sseClients := delete userId (sseClients s); handlers := handlers s; nextConn := nextConn s |}, [])
      | None => (s, [])
      end
  | Broadcast userId data throws =>
      match sseClients s !! userId with
      | Some c =>
          if throws
          then ({| sseClients := delete userId (sseClients s); handlers := handlers s;
                   nextConn := nextConn s |}, [])
          else (s, [Delivered c userId data])
      | None => (s, [])
      end
  end.

Fixpoint run (s : SSEState) (es : list event) : SSEState * list output :=
  match es with
  | [] => (s, [])
  | e :: es' =>
      let '(s1, o1) := step s e in
      let '(s2, o2) := run s1 es' in
      (s2, (o1 ++ o2)%list)
  end.

End SSE.


(* ------------------------------------------------------------------ *)
(** ** Two-stage wake word of [HeyMentraVoiceAssistant] ([index.ts]: the
       [onTranscription] handler set up in [onSession], its
       [LISTENING_TIMEOUT] timer, [detectWakeWord], [resetListeningState]) *)

Module WakeListening.
Import JsString.

Record LEntry := { isListening : bool; timestamp : Z }.

(** [listeningStates.get(userId)] (the [session] handle is left out) and
    the due times of the pending [setTimeout(.., LISTENING_TIMEOUT)]
    callbacks, oldest first. *)
Record WState := { listening : option LEntry; timers : list Z }.

Definition LISTENING_TIMEOUT : Z := 10000.
Definition timeout_msg : string := "Listening timeout. Say 'Hey Mentra' to try again.".

(** Observable effects: [processRequest(spokenText)] scheduled, a
    [showFeedbackAsync] message, the "I'm listening" acknowledgement
    ([speakWithRetry] then [showFeedbackAsync]). *)
Inductive effect :=
| Process (question : string)
| Feedback (msg : string) (durationMs : Z)
| Acknowledge.

Definition wakeWords : list string := ["hey mentra"; "hi mentra"; "hey mantra"].

(** [detectWakeWord(text)] *)
Definition detectWakeWord (text : string) : bool :=
  existsb (fun word => includes text word) wakeWords.

(** [resetListeningState(userId)] *)
Definition resetListeningState (st : option LEntry) : option LEntry :=
  match st with
  | Some _ => Some {| isListening := false; timestamp := 0 |}
  | None => None
  end.

(** [onSession]: the listening state is initialised to not listening. *)
Definition w_init : WState :=
  {| listening := Some {| isListening := false; timestamp := 0 |}; timers := [] |}.

(** The handler on a final transcription received at time [now]. *)
Definition onFinal (now : Z) (text : string) (s : WState) : WState * list effect :=
  let spokenText := trim (lower text) in
  let wake_branch :=
    if detectWakeWord spokenText
    then ({| listening := Some {| isListening := true; timestamp := now |};
             timers := (timers s ++ [(now + LISTENING_TIMEOUT)%Z])%list |}, [Acknowledge])
    else (s, []) in
  match listening s with
  | Some ls =>
      if isListening ls then
        let timeSinceWakeWord := (now - timestamp ls)%Z in
        if (timeSinceWakeWord >? LISTENING_TIMEOUT)%Z
        then ({| listening := resetListeningState (listening s); timers := timers s |},
              [Feedback timeout_msg 3000])
        else ({| listening := resetListeningState (listening s); timers := timers s |},
              [Process spokenText])
      else wake_branch
  | None => wake_branch
  end.

(** The [setTimeout] callback: [currentState.timestamp] is compared with
    [listeningStates.get(userId)?.timestamp], the same record. *)
Definition onTimer (s : WState) : WState :=
  match listening s with
  | Some currentState =>
      if isListening currentState && Z.eqb (timestamp currentState) (timestamp currentState)
      then {| listening := resetListeningState (listening s); timers := timers s |}
      else s
  | None => s
  end.

(** Before an event at time [now], the callbacks due by then run. *)
Definition fire_due (now : Z) (s : WState) : WState :=
  let due := List.filter (fun d => (d <=? now)%Z) (timers s) in
  let s' := {| listening := listening s;
               timers := List.filter (fun d => negb (d <=? now)%Z) (timers s) |} in
  fold_left (fun st _ => onTimer st) due s'.

(** Transcriptions [(time, text, isFinal)] in time order; partial ones
    are only broadcast. *)
Fixpoint sim (evs : list (Z * string * bool)) (s : WState) : WState * list effect :=
  match evs with
  | [] => (s, [])
  | (now, text, isFinal) :: evs' =>
      let s1 := fire_due now s in
      let '(s2, o1) := if isFinal then onFinal now text s1 else (s1, []) in
      let '(s3, o2) := sim evs' s2 in
      (s3, (o1 ++ o2)%list)
  end.

End WakeListening.


(* ------------------------------------------------------------------ *)
(** ** Buffering of live text chunks ([index.ts]:
       [handleLiveTextResponse] and its 500 ms timer callback). The
       spoken text is [TTSTruncation.tts_text]; [speakWithTTS] is an
       awaited call whose completion is an input. *)

Module LiveBuffer.
Import JsString.

(** Where a timer callback is suspended: in the 100 ms pause after
    aborting a running speech, or in [await this.speakWithTTS(..)]. *)
Inductive stage :=
| AwaitDelay (completeResponse ttsText : string)
| AwaitSpeech (completeResponse : string)
| Finished.

(** The user's [liveState] fields, whether [activeTTSOperations] holds a
    controller for the user, the scheduled timers not yet run or
    cleared, and the callbacks that have started. *)
Record LBState := {
  responseBuffer : string;
  isBuffering : bool;
  responseTimeout : option nat;
  ttsActive : bool;
  pendingTimers : list nat;
  callbacks : gmap nat stage;
  nextTimer : nat
}.


Inductive output :=
| SpeakText (text : string)                 (* speakWithTTS(session, ttsText, userId) *)
| ShowText (message : string).              (* showFeedbackAsync(session, `AI: ...`, 6000) *)

Inductive input :=
| Chunk (text : string)     (* handleLiveTextResponse(text, ..) *)
| TimerFires (id : nat)     (* the 500 ms callback of timer [id] starts *)
| DelayDone (id : nat)      (* the 100 ms pause of callback [id] ends *)
| SpeechDone (id : nat).    (* the speakWithTTS call of callback [id] resolves; its own
                               text fallback after two failed attempts is not an output here *)

(** [liveState.responseBuffer = ''; isBuffering = false; responseTimeout = null] *)
Definition reset_buffer (s : LBState) : LBState :=
  {| responseBuffer := ""; isBuffering := false; responseTimeout := None; ttsActive := ttsActive s;
     pendingTimers := pendingTimers s; callbacks := callbacks s; nextTimer := nextTimer s |}.

Definition with_tts (b : bool) (s : LBState) : LBState :=
  {| responseBuffer := responseBuffer s; isBuffering := isBuffering s;
     responseTimeout := responseTimeout s; ttsActive := b;
     pendingTimers := pendingTimers s; callbacks := callbacks s; nextTimer := nextTimer s |}.

Definition set_stage (id : nat) (st : stage) (s : LBState) : LBState :=
  {| responseBuffer := responseBuffer s; isBuffering := isBuffering s;
     responseTimeout := responseTimeout s; ttsActive := ttsActive s;
     pendingTimers := pendingTimers s; callbacks := <[id := st]> (callbacks s); nextTimer := nextTimer s |}.

Definition remove_timer (id : nat) (l : list nat) : list nat :=
  List.filter (fun j => negb (Nat.eqb j id)) l.

(** [handleLiveTextResponse(text, userId, session)] with a live session. *)
Definition onChunk (text : string) (s : LBState) : LBState :=
  let ttsActive1 := false in   (* an existing controller is aborted and deleted *)
  let pending1 := match responseTimeout s with
                  | Some id => remove_timer id (pendingTimers s)   (* clearTimeout *)
                  | None => pendingTimers s
                  end in
  let id := nextTimer s in
  {| responseBuffer := responseBuffer s ++ text; isBuffering := true; responseTimeout := Some id;
     ttsActive := ttsActive1; pendingTimers := (pending1 ++ [id])%list; callbacks := callbacks s;
     nextTimer := S id |}.

(** The timer callback up to its first [await]. *)
Definition onTimer (id : nat) (s : LBState) : LBState * list output :=
  let s0 := {| responseBuffer := responseBuffer s; isBuffering := isBuffering s;
               responseTimeout := responseTimeout s; ttsActive := ttsActive s;
               pendingTimers := remove_timer id (pendingTimers s); callbacks := callbacks s;
               nextTimer := nextTimer s |} in
  let completeResponse := trim (responseBuffer s0) in
  if String.eqb completeResponse "" then (reset_buffer (set_stage id Finished s0), [])
  else
    let ttsText := TTSTruncation.tts_text completeResponse in
    if ttsActive s0
    then (with_tts false (set_stage id (AwaitDelay completeResponse ttsText) s0), [])
    else (with_tts true (set_stage id (AwaitSpeech completeResponse) s0), [SpeakText ttsText]).

Definition step (s : LBState) (i : input) : LBState * list output :=
  match i with
  | Chunk text => (onChunk text s, [])
  | TimerFires id =>
      if existsb (Nat.eqb id) (pendingTimers s) then onTimer id s else (s, [])
  | DelayDone id =>
      match callbacks s !! id with
      | Some (AwaitDelay cr txt) => (with_tts true (set_stage id (AwaitSpeech cr) s), [SpeakText txt])
      | _ => (s, [])
      end
  | SpeechDone id =>
      match callbacks s !! id with
      | Some (AwaitSpeech cr) =>
          (* the [finally] of speakWithTTS deletes the user's controller *)
          (reset_buffer (with_tts false (set_stage id Finished s)), [ShowText ("AI: " ++ cr)])
      | _ => (s, [])
      end
  end.

Fixpoint run (s : LBState) (ins : list input) : LBState * list output :=
  match ins with
  | [] => (s, [])
  | i :: ins' =>
      let '(s1, o1) := step s i in
      let '(s2, o2) := run s1 ins' in
      (s2, (o1 ++ o2)%list)
  end.

Definition spoken (o : list output) : list string :=
  flat_map (fun x => match x with SpeakText t => [t] | ShowText _ => [] end) o.

End LiveBuffer.

(* ------------------------------------------------------------------ *)
(** ** Conversation history in the prompt ([index_stable_backup.ts]:
       [getTimeAgo] and [buildConversationContext]). The entries are those
       of [Conversations]; the step-tracking fields of the backup's
       [ConversationEntry] are not read here. *)

Module ConversationContext.
Import Conversations.

(** [getTimeAgo(timestamp)] with [Date.now()] = [now]; timestamps are
    integral milliseconds, so [Math.floor] of the quotient is [Z.div]. *)
Definition getTimeAgo (now timestamp : Z) : string :=
  let diffMs := (now - timestamp)%Z in
  let diffMins := (diffMs / (1000 * 60))%Z in
  let diffHours := (diffMs / (1000 * 60 * 60))%Z in
  let diffDays := (diffMs / (1000 * 60 * 60 * 24))%Z in
  if (diffMins <? 1)%Z then "just now"
  else if (diffMins <? 60)%Z then pretty diffMins ++ "m ago"
  else if (diffHours <? 24)%Z then pretty diffHours ++ "h ago"
  else if (diffDays =? 1)%Z then "yesterday"
  else if (diffDays <? 7)%Z then pretty diffDays ++ "d ago"
  else "over a week ago".

Definition dq : string := String (ascii_of_nat 34) EmptyString.

(** One line of the history, [`[${timeAgo}] User: "${q}" → AI: "${r}"`];
    the arrow is the same byte sequence as in [buildStepContext]. *)
Definition conv_line (now : Z) (c : ConversationEntry) : string :=
  "[" ++ getTimeAgo now (timestamp c) ++ "] User: " ++ dq ++ question c ++ dq
    ++ StepTracking.step_sep ++ "AI: " ++ dq ++ response c ++ dq.

Definition is_completed (c : ConversationEntry) : bool :=
  match status c with Completed => true | _ => false end.

Definition start_msg : string := "This is the start of our conversation.".

(** [buildConversationContext(userId, excludeCurrentQuestion?)]; the
    [i]-th call of [getTimeAgo] reads the clock [clock i]. An empty
    [excludeCurrentQuestion] is falsy and excludes nothing. *)
Definition buildConversationContext (clock : nat -> Z)
    (conv : gmap string (list ConversationEntry)) (u : string)
    (excludeCurrentQuestion : option string) : string :=
  let userConversations := user_conversations conv u in
  match userConversations with
  | [] => start_msg
  | _ =>
      let relevant0 := firstn 5 (List.filter is_completed userConversations) in
      let relevant :=
        match excludeCurrentQuestion with
        | Some q => if String.eqb q "" then relevant0
                    else List.filter (fun c => negb (String.eqb (question c) q)) relevant0
        | None => relevant0
        end in
      match relevant with
      | [] => start_msg
      | _ =>
          let conversationHistory :=
            String.concat StepTracking.nl
              (imap (fun i c => conv_line (clock i) c) (rev relevant)) in
          "Recent conversation history:" ++ StepTracking.nl ++ conversationHistory
            ++ StepTracking.nl ++ StepTracking.nl
            ++ "Use this context to provide relevant, personalized responses."
      end
  end.

End ConversationContext.


(* ================================================================== *)
(** * Properties *)

(* ------------------------------------------------------------------ *)
(** ** Orchestrator *)

Section OrchestratorFacts.

Import Orchestrator.

Example text_retry_then_ok :
  safeTextOnlyProcessing (fun a => if Nat.eqb a 1 then RemoteError "timeout" else RemoteText "Hi.")
  = ("Hi.", [TextCall 1; TextCall 2]).
Proof. reflexivity. Qed.

Example text_blank_is_failure :
  safeTextOnlyProcessing (fun _ => RemoteText "  ") = (text_exhausted, [TextCall 1; TextCall 2]).
Proof. reflexivity. Qed.

Lemma usable_nonempty (t : string) : usable t = true -> t <> "".
Proof. intros H ->. discriminate H. Qed.

Lemma attempt_result_nonempty (r : remote) (t : string) :
  attempt_result r = Some t -> t <> "".
Proof.
  destruct r as [t'|m]; simpl; [|discriminate].
  destruct (usable t') eqn:U; [|discriminate].
  intros [= <-]. now apply usable_nonempty.
Qed.

Lemma text_loop_nonempty (env : nat -> remote) (r a : nat) : fst (text_loop env a r) <> "".
Proof.
  revert a; induction r as [|r IH]; intros a; simpl; [discriminate|].
  destruct (attempt_result (env a)) as [t|] eqn:E.
  - simpl. eapply attempt_result_nonempty; eauto.
  - destruct (Nat.eqb a maxRetries); [simpl; discriminate|].
    specialize (IH (S a)). destruct (text_loop env (S a) r). exact IH.
Qed.

Lemma safeTextOnlyProcessing_nonempty (env : nat -> remote) :
  fst (safeTextOnlyProcessing env) <> "".
Proof. apply text_loop_nonempty. Qed.

Lemma vision_loop_nonempty (envV envT : nat -> remote) (p : PhotoData) (r a : nat) :
  fst (vision_loop envV envT p a r) <> "".
Proof.
  revert a; induction r as [|r IH]; intros a; simpl.
  - apply safeTextOnlyProcessing_nonempty.
  - destruct (image_too_large p); [apply safeTextOnlyProcessing_nonempty|].
    destruct (attempt_result (envV a)) as [t|] eqn:E.
    + simpl. eapply attempt_result_nonempty; eauto.
    + destruct (Nat.eqb a maxRetries).
      * pose proof (safeTextOnlyProcessing_nonempty envT) as H.
        destruct (safeTextOnlyProcessing envT). exact H.
      * specialize (IH (S a)). destruct (vision_loop envV envT p (S a) r). exact IH.
Qed.

(** C2: for every outcome of the photo capture (a photo, [null] for a
    failed or skipped capture, or a rejected branch), of every text-only
    attempt and of every vision attempt, [processResults] returns a
    non-empty string, whether the step-1 text-only branch was fulfilled (with
    the result of [safeTextOnlyProcessing]) or rejected. Remote rejections
    are inputs of the model, each absorbed into a fallback tier. *)
Theorem processResults_total_nonempty :
  forall (photoResult : settled (option PhotoData)) (envT1 envV envT2 : nat -> remote),
    fst (processResults photoResult (Fulfilled (fst (safeTextOnlyProcessing envT1))) envV envT2) <> ""
    /\ fst (processResults photoResult Rejected envV envT2) <> "".
Proof.
  intros photoResult envT1 envV envT2.
  split; destruct photoResult as [[p|]|]; simpl;
    solve [ apply vision_loop_nonempty | apply safeTextOnlyProcessing_nonempty | discriminate ].
Qed.

Definition small_photo : PhotoData := {| mimeType := "image/jpeg"; buffer := [] |}.
Definition vision_times_out : nat -> remote := fun _ => RemoteError "Vision timeout".

(** C4 (counterexample): the photo is captured, step 1 answered "A", both
    vision attempts time out; the response is "B", the answer of a second
    round of text-only calls, not the step-1 result. *)
Lemma vision_failure_cex :
  fst (safeTextOnlyProcessing (fun _ => RemoteText "A")) = "A" /\
  orchestrate (Some small_photo) (fun _ => RemoteText "A") vision_times_out
              (fun _ => RemoteText "B")
  = ("B", [TextCall 1; VisionCall 1; VisionCall 2; TextCall 1]).
Proof. split; reflexivity. Qed.

(** C4 (amended): when the photo is captured and either its base64 encoding
    exceeds 1,000,000 characters or both vision attempts fail,
    [processResults] returns the result of a NEW [safeTextOnlyProcessing]
    call (its text calls come after the vision calls), whatever the step-1
    text-only result was. *)
Theorem vision_failure_reinvokes_text :
  forall (p : PhotoData) (textOnly : settled string) (envV envT : nat -> remote),
    (image_too_large p = true \/
     (attempt_result (envV 1) = None /\ attempt_result (envV 2) = None)) ->
    processResults (Fulfilled (Some p)) textOnly envV envT =
      (fst (safeTextOnlyProcessing envT),
       ((if image_too_large p then [] else [VisionCall 1; VisionCall 2])
          ++ snd (safeTextOnlyProcessing envT))%list).
Proof.
  intros p textOnly envV envT H.
  unfold processResults, safeVisionProcessing. simpl.
  destruct (image_too_large p) eqn:L.
  - simpl. destruct (safeTextOnlyProcessing envT); reflexivity.
  - destruct H as [H|[H1 H2]]; [discriminate|].
    rewrite H1, H2. simpl. destruct (safeTextOnlyProcessing envT); reflexivity.
Qed.

Lemma vision_failure_reinvokes_text_witness :
  processResults (Fulfilled (Some small_photo)) (Fulfilled "A") vision_times_out
                 (fun _ => RemoteText "B")
  = (fst (safeTextOnlyProcessing (fun _ => RemoteText "B")),
     ((if image_too_large small_photo then [] else [VisionCall 1; VisionCall 2])
        ++ snd (safeTextOnlyProcessing (fun _ => RemoteText "B")))%list).
Proof.
  apply (vision_failure_reinvokes_text small_photo (Fulfilled "A") vision_times_out
           (fun _ => RemoteText "B")).
  right. split; reflexivity.
Defined.

End OrchestratorFacts.

(* ------------------------------------------------------------------ *)
(** ** Listening state machine *)

Section ListeningFacts.

Import Listening.
Local Open Scope Z_scope.

Example wake_then_question :
  run (initial 0) [Transcription "Hey Mentra" true 1000; Transcription "What do you see" true 3000]
  = (resetListeningState (initial 0) 3000,
     [Speak ack_msg; Dispatch "what do you see"]).
Proof. reflexivity. Qed.

(** Wake phrase at t = 1000, then nothing but empty partial transcripts:
    3.6 s and 5 s after the wake word the user is still [Listening], and
    the only prompt ever spoken is the acknowledgement. *)
Definition silent_after_wake : list input :=
  [Transcription "Hey Mentra" true 1000; Transcription "" false 2000;
   Transcription "" false 4600; Transcription "" false 6000].

(** C3 (failing input): after a wake phrase and 5 s of pure silence the
    state is still listening and no "didn't hear anything" prompt was
    spoken; whereas speech followed by 2.5 s of silence returns to idle
    with no prompt. *)
Lemma silence_after_wake_keeps_listening :
  run (initial 0) silent_after_wake = (Some (woken 1000), [Speak ack_msg]) /\
  run (initial 0) [Transcription "Hey Mentra" true 1000; Transcription "what is" false 2000;
                   Transcription "" false 2500; Transcription "" false 6000]
  = (resetListeningState (initial 0) 6000, [Speak ack_msg]).
Proof. split; reflexivity. Qed.

(** A started silence clock implies the user has spoken since the wake word. *)
Definition silence_inv (st : option ListeningState) : Prop :=
  match st with
  | Some ls => 0 < silenceStartTime ls -> hasSpokenSinceWakeWord ls = true
  | None => True
  end.

Lemma silence_inv_reset (st : option ListeningState) (now : Z) :
  silence_inv (resetListeningState st now).
Proof. destruct st; simpl; [lia|exact I]. Qed.

Lemma silence_branch_inv (ls : ListeningState) (now : Z) :
  silence_inv (Some ls) ->
  silence_inv (fst (silence_branch ls now)) /\ ~ In (Speak giveup_msg) (snd (silence_branch ls now)).
Proof.
  unfold silence_branch; simpl; intros Hinv.
  destruct (hasSpokenSinceWakeWord ls) eqn:Hsp; simpl.
  - destruct (silenceStartTime ls =? 0); simpl;
      repeat (simpl; rewrite ?Hsp; simpl;
              match goal with |- context [if ?b then _ else _] => destruct b end);
      simpl; (split; [first [lia | intros; assumption] | tauto]).
  - destruct (0 <? silenceStartTime ls) eqn:Hp.
    + apply Z.ltb_lt, Hinv in Hp. congruence.
    + simpl. split; [intros Hq; apply Z.ltb_lt in Hq; congruence | tauto].
Qed.

Lemma step_silence_inv (st : option ListeningState) (i : input) :
  silence_inv st ->
  silence_inv (fst (step st i)) /\ ~ In (Speak giveup_msg) (snd (step st i)).
Proof.
  intros Hinv. destruct i as [text isFinal now|now]; simpl.
  - unfold onTranscription.
    destruct (isFinal && negb (is_listening st)).
    { destruct (detectWakeWord (trim (lower text))); simpl.
      - split; [simpl; lia|]. intros [H|[]]. discriminate H.
      - split; [exact Hinv | tauto]. }
    destruct st as [ls|]; [|simpl; split; [exact I | tauto]].
    destruct (isListening ls); [|simpl; split; [exact Hinv | tauto]].
    destruct (MAX_LISTENING_TIMEOUT <? now - timestamp ls).
    { simpl. split; [simpl; lia|]. intros [H|[]]. discriminate H. }
    destruct (VOICE_ACTIVITY_THRESHOLD <=? String.length (trim (lower text)))%nat.
    + destruct (isFinal && (0 <? String.length (trim (lower text)))%nat); simpl.
      * split; [simpl; lia|]. intros [H|[]]. discriminate H.
      * split; [lia | tauto].
    + apply silence_branch_inv; exact Hinv.
  - destruct st as [ls|]; simpl; [|split; [exact I | tauto]].
    destruct (isListening ls && (timestamp ls =? timestamp ls)); simpl.
    + split; [lia|]. intros [H|[]]. discriminate H.
    + split; [exact Hinv | tauto].
Qed.

Lemma run_silence_inv (ins : list input) (st : option ListeningState) :
  silence_inv st ->
  silence_inv (fst (run st ins)) /\ ~ In (Speak giveup_msg) (snd (run st ins)).
Proof.
  revert st; induction ins as [|i rest IH]; intros st Hinv; simpl; [split; [exact Hinv | tauto]|].
  destruct (step_silence_inv st i Hinv) as [H1 H2].
  destruct (step st i) as [st1 e1] eqn:E1. simpl in H1, H2.
  destruct (IH st1 H1) as [H3 H4].
  destruct (run st1 rest) as [st2 e2]. simpl in *.
  split; [exact H3|]. rewrite in_app_iff. tauto.
Qed.

(** The "didn't hear anything" prompt is never spoken, on any sequence of
    events from the state [onSession] installs: its branch requires a
    started silence clock, which requires earlier speech. *)
Lemma giveup_prompt_unreachable (now0 : Z) (ins : list input) :
  ~ In (Speak giveup_msg) (snd (run (initial now0) ins)).
Proof. apply run_silence_inv. simpl. lia. Qed.

(** C7: while listening, an event arriving more than
    [MAX_LISTENING_TIMEOUT] after the wake word always takes the max-timeout
    branch (reset plus the timeout prompt), whatever its text and whatever
    the silence clock says: the max-timeout check comes first. *)
Theorem max_timeout_checked_first :
  forall (ls : ListeningState) (text : string) (isFinal : bool) (now : Z),
    isListening ls = true ->
    MAX_LISTENING_TIMEOUT < now - timestamp ls ->
    onTranscription (Some ls) text isFinal now
    = (resetListeningState (Some ls) now, [Speak timeout_msg]).
Proof.
  intros ls text isFinal now Hl Ht. unfold onTranscription. simpl.
  rewrite Hl. simpl. rewrite andb_false_r.
  replace (MAX_LISTENING_TIMEOUT <? now - timestamp ls) with true by (symmetry; apply Z.ltb_lt; exact Ht).
  reflexivity.
Qed.

(** Both timeouts hold here: 2.5 s of silence after speech, and 46 s since
    the wake word. *)
Definition spoke_then_silent : ListeningState :=
  {| isListening := true; timestamp := 1000; lastVoiceActivity := 40000;
     silenceStartTime := 40500; hasSpokenSinceWakeWord := true |}.

Lemma max_timeout_checked_first_witness :
  SILENCE_TIMEOUT <= 47000 - silenceStartTime spoke_then_silent /\
  onTranscription (Some spoke_then_silent) "" false 47000
  = (resetListeningState (Some spoke_then_silent) 47000, [Speak timeout_msg]).
Proof.
  split; [vm_compute; discriminate|].
  apply (max_timeout_checked_first spoke_then_silent "" false 47000);
    [reflexivity | vm_compute; reflexivity].
Defined.

End ListeningFacts.

(* ------------------------------------------------------------------ *)
(** ** Request queue *)

Section QueueFacts.

Import RequestQueue.

Definition req (q : string) : Request := {| question := q; userId := "u"; enqueuedAt := 0 |}.

Example burst_is_serialised :
  log (run [Enqueue (req "a"); Enqueue (req "b"); Complete; Enqueue (req "c");
            RunImmediate; RunImmediate; Complete; RunImmediate; Complete])
  = sequential [req "a"; req "b"; req "c"].
Proof. reflexivity. Qed.

(** Scheduler invariant, for the requests [enq] enqueued so far: the busy
    flag is set exactly while an invocation holds a request; the log is
    finished requests, each started then finished, followed by the start of
    the in-flight one; finished, in-flight and queued requests are the
    enqueued ones in order; and a non-empty queue always has an invocation
    running or a callback scheduled. *)
Definition qinv (enq : list Request) (s : QState) : Prop :=
  isProcessingRequest s = is_some (inFlight s) /\
  (exists done, log s = (sequential done ++ map Started (opt_list (inFlight s)))%list /\
                (done ++ opt_list (inFlight s) ++ requestQueue s)%list = enq) /\
  (requestQueue s <> [] -> isProcessingRequest s = true \/ 0 < pendingImmediates s).

Lemma sequential_snoc (done : list Request) (r : Request) :
  sequential (done ++ [r]) = (sequential done ++ [Started r; Finished r])%list.
Proof. unfold sequential. rewrite flat_map_app. simpl. reflexivity. Qed.

Lemma qinv_init : qinv [] init.
Proof.
  split; [reflexivity|]. split; [exists []; split; reflexivity|].
  intros H; contradiction H; reflexivity.
Qed.

(** Starting the head of the queue from an idle scheduler. *)
(** Starting the head of a non-empty queue from an idle scheduler. *)
Lemma qinv_start (enq : list Request) (done q : list Request) (p : nat) (l : list event) :
  q <> [] ->
  l = sequential done ->
  (done ++ q)%list = enq ->
  qinv enq (processQueueAsync {| requestQueue := q; isProcessingRequest := false;
                                 inFlight := None; pendingImmediates := p; log := l |}).
Proof.
  intros Hq Hl He. destruct q as [|h rest]; [contradiction Hq; reflexivity|]. simpl.
  split; [reflexivity|]. split; [|left; reflexivity].
  exists done. split.
  - rewrite Hl. reflexivity.
  - exact He.
Qed.

Lemma qinv_step (enq : list Request) (s : QState) (i : input) :
  qinv enq s -> qinv (enq ++ enqueued [i])%list (step s i).
Proof.
  destruct s as [q b f p l]. intros (H1 & (done & Hl & He) & H4).
  simpl in H1, Hl, He, H4.
  destruct i as [r| |]; simpl.
  - (* [processRequest] *)
    unfold processRequest; simpl. destruct b; simpl.
    + split; [exact H1|]. split; [|left; reflexivity].
      exists done. split; [exact Hl|]. simpl. rewrite <- He, <- !app_assoc. reflexivity.
    + destruct f; [discriminate H1|]. simpl in Hl, He.
      apply (qinv_start _ done).
      * destruct q; discriminate.
      * rewrite Hl, app_nil_r. reflexivity.
      * rewrite <- He, app_assoc. reflexivity.
  - (* the [finally] block *)
    rewrite app_nil_r. unfold finishCurrent; simpl.
    destruct f as [r|]; simpl.
    + split; [reflexivity|]. split.
      * exists (done ++ [r])%list. split.
        -- rewrite Hl, sequential_snoc, app_nil_r, <- app_assoc. reflexivity.
        -- rewrite <- He, <- app_assoc. reflexivity.
      * intros Hq. right. destruct q; [contradiction Hq; reflexivity | simpl; lia].
    + split; [exact H1|]. split; [exists done; auto|]. exact H4.
  - (* a scheduled [setImmediate] callback *)
    rewrite app_nil_r. unfold runImmediate; simpl.
    destruct p as [|p]; simpl.
    + split; [exact H1|]. split; [exists done; auto|]. exact H4.
    + destruct q as [|h rest] eqn:Hq; destruct b; simpl.
      * split; [exact H1|]. split; [exists done; auto|]. intros []; reflexivity.
      * split; [exact H1|]. split; [exists done; auto|]. intros []; reflexivity.
      * split; [exact H1|]. split; [exists done; auto|]. intros _; left; reflexivity.
      * destruct f; [discriminate H1|]. simpl in Hl, He.
        split; [reflexivity|]. split; [|left; reflexivity].
        exists done. split; [rewrite Hl, app_nil_r; reflexivity | exact He].
Qed.

Lemma enqueued_app (a b : list input) : enqueued (a ++ b) = (enqueued a ++ enqueued b)%list.
Proof.
  induction a as [|i a IH]; simpl; [reflexivity|].
  destruct i; simpl; rewrite ?IH; reflexivity.
Qed.

Lemma qinv_run_from (enq : list Request) (s : QState) (ins : list input) :
  qinv enq s -> qinv (enq ++ enqueued ins)%list (fold_left step ins s).
Proof.
  revert enq s; induction ins as [|i rest IH]; intros enq s H; cbn [fold_left].
  - rewrite app_nil_r. exact H.
  - replace (enq ++ enqueued (i :: rest))%list with ((enq ++ enqueued [i]) ++ enqueued rest)%list.
    + apply IH, qinv_step, H.
    + rewrite <- app_assoc. f_equal. destruct i; reflexivity.
Qed.

Lemma qinv_run (ins : list input) : qinv (enqueued ins) (run ins).
Proof. apply (qinv_run_from [] init ins qinv_init). Qed.

(** Remaining work: queued requests, the busy flag, scheduled callbacks. *)
Definition work (s : QState) : nat :=
  3 * length (requestQueue s) + (if isProcessingRequest s then 2 else 0) + pendingImmediates s.

(** The event loop finishing the running request or running a callback,
    until nothing is running or scheduled. *)
Fixpoint drain (fuel : nat) (s : QState) : list input :=
  match fuel with
  | O => []
  | S k =>
      match inFlight s with
      | Some _ => Complete :: drain k (finishCurrent s)
      | None =>
          match pendingImmediates s with
          | O => []
          | S _ => RunImmediate :: drain k (runImmediate s)
          end
      end
  end.

Lemma drain_no_enqueue (fuel : nat) (s : QState) :
  forallb (fun i => negb (is_enqueue i)) (drain fuel s) = true.
Proof.
  revert s; induction fuel as [|k IH]; intros s; simpl; [reflexivity|].
  destruct (inFlight s); [apply IH|]. destruct (pendingImmediates s); [reflexivity | apply IH].
Qed.

Lemma enqueued_no_enqueue (ins : list input) :
  forallb (fun i => negb (is_enqueue i)) ins = true -> enqueued ins = [].
Proof.
  induction ins as [|i rest IH]; simpl; [reflexivity|].
  destruct i; simpl; [discriminate | apply IH | apply IH].
Qed.

Lemma qinv_step_internal (enq : list Request) (s : QState) (i : input) :
  is_enqueue i = false -> qinv enq s -> qinv enq (step s i).
Proof.
  intros Hi H. pose proof (qinv_step enq s i H) as H'.
  destruct i; [discriminate Hi | |]; simpl in H'; rewrite app_nil_r in H'; exact H'.
Qed.

Lemma drain_quiescent (fuel : nat) (enq : list Request) (s : QState) :
  qinv enq s -> work s < fuel ->
  inFlight (fold_left step (drain fuel s) s) = None /\
  pendingImmediates (fold_left step (drain fuel s) s) = 0.
Proof.
  revert s; induction fuel as [|k IH]; intros s Hinv Hw; [lia|].
  destruct s as [q b f p l]. pose proof Hinv as (H1 & _ & H4). simpl in H1, H4.
  cbn [drain inFlight pendingImmediates]. destruct f as [r|].
  - cbn [fold_left]. apply IH.
    + apply (qinv_step_internal enq _ Complete eq_refl Hinv).
    + unfold work in *; simpl in *. subst b. destruct q; simpl in *; lia.
  - destruct p as [|p]; [split; reflexivity|].
    cbn [fold_left]. apply IH.
    + apply (qinv_step_internal enq _ RunImmediate eq_refl Hinv).
    + unfold work in *; simpl in *. subst b. destruct q; simpl in *; lia.
Qed.

(** C1: on every sequence of calls and completions, (a) the busy flag is
    set exactly while one invocation holds a dequeued request, (b) the log
    of orchestrator starts and finishes is strictly sequential (request
    i+1 starts only after request i finished) and the started, in-flight
    and queued requests are exactly the enqueued ones in FIFO order, and
    (c) letting the running request finish and the scheduled callbacks run,
    with no further calls, every one of the N enqueued requests is
    started and finished exactly once, in enqueue order. Enqueueing is a
    synchronous step that is enabled in every state. *)
Theorem queue_fifo_sequential (ins : list input) :
  isProcessingRequest (run ins) = is_some (inFlight (run ins)) /\
  (exists done,
     log (run ins) = (sequential done ++ map Started (opt_list (inFlight (run ins))))%list /\
     (done ++ opt_list (inFlight (run ins)) ++ requestQueue (run ins))%list = enqueued ins) /\
  (exists more,
     forallb (fun i => negb (is_enqueue i)) more = true /\
     log (run (ins ++ more)) = sequential (enqueued ins)).
Proof.
  pose proof (qinv_run ins) as Hinv.
  destruct Hinv as [H1 [H2 H4]].
  split; [exact H1|]. split; [exact H2|].
  set (more := drain (S (work (run ins))) (run ins)).
  exists more. split; [apply drain_no_enqueue|].
  assert (Hq : qinv (enqueued ins) (fold_left step more (run ins))).
  { pose proof (qinv_run_from _ _ more (qinv_run ins)) as H.
    rewrite (enqueued_no_enqueue more (drain_no_enqueue _ _)), app_nil_r in H. exact H. }
  destruct (drain_quiescent (S (work (run ins))) (enqueued ins) (run ins) (qinv_run ins)
              (Nat.lt_succ_diag_r _)) as [Hf Hp].
  unfold run at 1. rewrite fold_left_app. fold (run ins). fold more.
  fold more in Hf, Hp.
  destruct Hq as (G1 & (done & Gl & Ge) & G4).
  rewrite Hf in G1, Gl, Ge. simpl in Gl, Ge.
  destruct (requestQueue (fold_left step more (run ins))) as [|h rest] eqn:Hrq.
  - rewrite app_nil_r in Ge. rewrite Gl, app_nil_r, Ge. reflexivity.
  - exfalso.
    destruct (G4 ltac:(discriminate)) as [G|G]; [rewrite G1 in G; discriminate | lia].
Qed.

End QueueFacts.

(* ------------------------------------------------------------------ *)
(** ** Speech output cancellation *)

Section TTSFacts.

Import TTS.

Example second_call_cancels_first :
  map tphase (tasks (run init [Speak "u" "A"; Speak "u" "B"; Resume 0; SpeakSettles 1 true ""]))
  = [Done Cancelled; Done Spoken].
Proof. reflexivity. Qed.

(** Three calls for user "u": "A", then "B" while "A" is in flight (this
    aborts "A"), then "A"'s cancelled continuation runs, then "C" while
    "B" is in flight. *)
Definition overlap_trace : list input :=
  [Speak "u" "A"; Speak "u" "B"; Resume 0; Speak "u" "C"].

(** C5 (failing input): "A"'s [finally] deleted the map entry, which by
    then held "B"'s controller, so "C" finds nothing to abort: "B" and "C"
    are both live at once and both are spoken. *)
Lemma tts_superseded_call_survives :
  activeTTSOperations (run init [Speak "u" "A"; Speak "u" "B"; Resume 0]) !! "u" = None /\
  live (run init overlap_trace) 1 = true /\
  live (run init overlap_trace) 2 = true /\
  map tphase (tasks (run init (overlap_trace ++ [SpeakSettles 1 true ""; SpeakSettles 2 true ""])))
  = [Done Cancelled; Done Spoken; Done Spoken].
Proof. vm_compute. repeat split. Qed.


Lemma is_aborted_In s c : is_aborted s c = true <-> In c (abortedCtrls s).
Proof.
  unfold is_aborted. rewrite existsb_exists. split.
  - intros [x [Hx E]]. apply Nat.eqb_eq in E. subst. exact Hx.
  - intros H. exists c. split; [exact H | apply Nat.eqb_refl].
Qed.

Lemma is_aborted_false s c : is_aborted s c = false -> ~ In c (abortedCtrls s).
Proof. intros E H. apply is_aborted_In in H. congruence. Qed.

Lemma lookup_insert_at {A} (l : list A) i x j :
  i < length l -> <[i := x]> l !! j = if decide (j = i) then Some x else l !! j.
Proof.
  intros Hlt. destruct (decide (j = i)) as [->|Hne].
  - by apply list_lookup_insert_eq.
  - rewrite list_lookup_insert_ne; [reflexivity | congruence].
Qed.

Lemma tinv_set s i t p :
  tinv s -> tasks s !! i = Some t -> not_done p -> phase_ok p ->
  (In i (abortedCtrls s) -> cancel_phase p) ->
  (forall a r, p = Racing a (Some r) -> In i (abortedCtrls s)) ->
  tinv (set_task i (with_phase t p) s).
Proof.
  intros [Hm Ha Hs Hb Hp] Hi Hnd Hok Hc Hr.
  pose proof (fun j => lookup_insert_at (tasks s) i (with_phase t p) j (lookup_lt_Some _ _ _ Hi)) as Hl.
  unfold set_task; constructor; cbn.
  - intros u c Hu. destruct (Hm u c Hu) as (t0 & H0 & Hu0 & Hnd0). rewrite Hl.
    destruct (decide (c = i)) as [->|Hne]; [|eauto].
    rewrite Hi in H0. injection H0 as <-. eexists; split; [reflexivity|]. cbn. auto.
  - intros c t' Ht' Hin. rewrite Hl in Ht'.
    destruct (decide (c = i)) as [->|Hne]; [injection Ht' as <-; cbn; auto | eauto].
  - intros c t' a r Ht' Hph. rewrite Hl in Ht'.
    destruct (decide (c = i)) as [->|Hne]; [injection Ht' as <-; cbn in Hph; eauto | eauto].
  - intros c Hin. rewrite length_insert. auto.
  - intros c t' Ht'. rewrite Hl in Ht'.
    destruct (decide (c = i)) as [->|Hne]; [injection Ht' as <-; cbn; auto | eauto].
Qed.

Lemma tinv_finish s i t o :
  tinv s -> tasks s !! i = Some t -> (In i (abortedCtrls s) -> o = Cancelled) ->
  tinv (finish i t o s).
Proof.
  intros [Hm Ha Hs Hb Hp] Hi Ho.
  pose proof (fun j => lookup_insert_at (tasks s) i (with_phase t (Done o)) j (lookup_lt_Some _ _ _ Hi)) as Hl.
  unfold finish; constructor; cbn.
  - intros u c Hu. destruct (decide (u = tuser t)) as [->|Hne].
    { rewrite lookup_delete_eq in Hu. discriminate. }
    rewrite lookup_delete_ne in Hu by congruence.
    destruct (Hm u c Hu) as (t0 & H0 & Hu0 & Hnd0). rewrite Hl.
    destruct (decide (c = i)) as [->|Hci]; [|eauto].
    rewrite Hi in H0. injection H0 as <-. congruence.
  - intros c t' Ht' Hin. rewrite Hl in Ht'.
    destruct (decide (c = i)) as [->|Hne]; [injection Ht' as <-; cbn; auto | eauto].
  - intros c t' a r Ht' Hph. rewrite Hl in Ht'.
    destruct (decide (c = i)) as [->|Hne]; [injection Ht' as <-; discriminate | eauto].
  - intros c Hin. rewrite length_insert. auto.
  - intros c t' Ht'. rewrite Hl in Ht'.
    destruct (decide (c = i)) as [->|Hne]; [injection Ht' as <-; exact I | eauto].
Qed.

Lemma tinv_loop_top s i t a :
  tinv s -> tasks s !! i = Some t -> 1 <= a <= maxRetries ->
  tinv (loop_top i t a s).
Proof.
  intros Hinv Hi Ha. unfold loop_top.
  replace (Nat.leb a maxRetries) with true by (symmetry; apply Nat.leb_le; lia).
  case_eq (is_aborted s i); intros E.
  - apply tinv_finish; auto.
  - apply is_aborted_false in E.
    apply tinv_set; [exact Hinv | exact Hi | exact I | cbn; lia | tauto | intros ? ? [=]].
Qed.

Lemma tinv_catch s i t a msg :
  tinv s -> tasks s !! i = Some t -> 1 <= a <= maxRetries ->
  (In i (abortedCtrls s) -> msg = cancelled_msg) ->
  tinv (catch_block i t a msg s).
Proof.
  intros Hinv Hi Ha Hm. unfold catch_block.
  case_eq (String.eqb msg cancelled_msg); intros E.
  - apply tinv_finish; auto.
  - assert (Hn : ~ In i (abortedCtrls s)).
    { intros H. apply Hm in H. subst. rewrite String.eqb_refl in E. discriminate. }
    case_eq (Nat.eqb a maxRetries); intros Ea.
    + apply tinv_finish; tauto.
    + apply Nat.eqb_neq in Ea.
      apply tinv_set; [exact Hinv | exact Hi | exact I | cbn; lia | tauto | intros ? ? [=]].
Qed.

Lemma tinv_after_race s i t a r :
  tinv s -> tasks s !! i = Some t -> 1 <= a <= maxRetries ->
  (forall m, r = RaceReject m -> In i (abortedCtrls s) -> m = cancelled_msg) ->
  tinv (after_race i t a r s).
Proof.
  intros Hinv Hi Ha Hr. destruct r as [ok err | m]; cbn.
  - case_eq (is_aborted s i); intros E.
    + apply tinv_finish; auto.
    + apply is_aborted_false in E. destruct ok.
      * apply tinv_finish; tauto.
      * apply tinv_catch; tauto.
  - apply tinv_catch; eauto.
Qed.

Lemma tinv_abort s u c :
  tinv s -> activeTTSOperations s !! u = Some c -> tinv (abort c s).
Proof.
  intros [Hm Ha Hs Hb Hp] Hu.
  destruct (Hm u c Hu) as (tc & Hc & _ & Hndc).
  assert (Hl : forall j, imap (abort_task c) (tasks s) !! j = abort_task c j <$> tasks s !! j)
    by (intros j; apply list_lookup_imap).
  assert (Hph : forall j t, tphase (abort_task c j t) = tphase t \/
                  exists a, tphase t = Racing a None /\
                            tphase (abort_task c j t) = Racing a (Some (RaceReject cancelled_msg))).
  { intros j t. unfold abort_task. destruct (Nat.eqb j c); [|auto].
    destruct (tphase t) as [a [r|]| a | o] eqn:Et; auto.
    right. exists a. auto. }
  assert (Hus : forall j t, tuser (abort_task c j t) = tuser t).
  { intros j t. unfold abort_task. destruct (Nat.eqb j c); [|auto].
    destruct (tphase t) as [a [r|]| a | o]; reflexivity. }
  assert (Hne : forall j t, j <> c -> abort_task c j t = t).
  { intros j t Hj. unfold abort_task. apply Nat.eqb_neq in Hj. rewrite Hj. reflexivity. }
  unfold abort; constructor; cbn.
  - intros u' c' Hu'. destruct (Hm u' c' Hu') as (t0 & H0 & Hu0 & Hnd0).
    exists (abort_task c c' t0). rewrite Hl, H0. split; [reflexivity|]. split; [rewrite Hus; exact Hu0|].
    destruct (Hph c' t0) as [-> | (a & _ & ->)]; [exact Hnd0 | exact I].
  - intros j t' Ht' Hin. rewrite Hl in Ht'.
    destruct (tasks s !! j) as [t0|] eqn:H0; [|discriminate]. injection Ht' as <-.
    destruct (decide (j = c)) as [->|Hj].
    + rewrite Hc in H0. injection H0 as <-.
      destruct (Hph c tc) as [Ep | (a & Ep & ->)]; [|reflexivity]. rewrite Ep.
      destruct (tphase tc) as [a [r|]| a | o] eqn:Et; cbn.
      * pose proof (Ha c tc Hc (Hs c tc a r Hc Et)) as P. rewrite Et in P. exact P.
      * unfold abort_task in Ep. rewrite Nat.eqb_refl, Et in Ep. discriminate.
      * exact I.
      * contradiction.
    + rewrite Hne by exact Hj. destruct Hin as [->|Hin]; [contradiction|]. eauto.
  - intros j t' a r Ht' Ep. rewrite Hl in Ht'.
    destruct (tasks s !! j) as [t0|] eqn:H0; [|discriminate]. injection Ht' as <-.
    destruct (decide (j = c)) as [->|Hj]; [left; reflexivity|].
    right. rewrite Hne in Ep by exact Hj. eauto.
  - intros j [->|Hin]; rewrite length_imap; [exact (lookup_lt_Some _ _ _ Hc) | auto].
  - intros j t' Ht'. rewrite Hl in Ht'.
    destruct (tasks s !! j) as [t0|] eqn:H0; [|discriminate]. injection Ht' as <-.
    destruct (Hph j t0) as [-> | (a & E0 & ->)]; [eauto|].
    pose proof (Hp j t0 H0) as P. rewrite E0 in P. exact P.
Qed.

Lemma tinv_speak s u text : tinv s -> tinv (speakWithTTS u text s).
Proof.
  intros Hinv. unfold speakWithTTS.
  set (s1 := match activeTTSOperations s !! u with Some c => abort c s | None => s end).
  assert (H1 : tinv s1).
  { unfold s1. destruct (activeTTSOperations s !! u) eqn:E; [eapply tinv_abort; eauto | exact Hinv]. }
  set (t := {| tuser := u; ttext := text; tphase := Racing 1 None |}).
  set (i := length (tasks s1)).
  destruct H1 as [Hm Ha Hs Hb Hp].
  assert (Hl : forall j, (tasks s1 ++ [t])%list !! j =
                 if decide (j = i) then Some t else tasks s1 !! j).
  { intros j. destruct (decide (j = i)) as [->|Hj].
    - apply list_lookup_middle. reflexivity.
    - destruct (decide (j < i)).
      + apply lookup_app_l. exact l.
      + rewrite lookup_app_r by (unfold i in *; lia).
        rewrite (lookup_ge_None_2 (tasks s1) j) by (unfold i in *; lia).
        apply lookup_ge_None_2. cbn. unfold i in *; lia. }
  apply tinv_loop_top; [| cbn; rewrite Hl; rewrite decide_True by reflexivity; reflexivity | unfold maxRetries; lia].
  constructor; cbn.
  - intros u' c' Hu'. destruct (decide (u' = u)) as [->|Hne].
    + rewrite lookup_insert_eq in Hu'. injection Hu' as <-. exists t.
      rewrite Hl, decide_True by reflexivity. split; [reflexivity|]. split; [reflexivity | exact I].
    + rewrite lookup_insert_ne in Hu' by congruence.
      destruct (Hm u' c' Hu') as (t0 & H0 & Hu0 & Hnd0). exists t0.
      rewrite Hl. destruct (decide (c' = i)) as [->|]; [|auto].
      apply lookup_lt_Some in H0. unfold i in H0. lia.
  - intros j t' Ht' Hin. rewrite Hl in Ht'. destruct (decide (j = i)) as [->|]; [|eauto].
    apply Hb in Hin. unfold i in Hin. lia.
  - intros j t' a r Ht' Ep. rewrite Hl in Ht'. destruct (decide (j = i)) as [->|]; [|eauto].
    injection Ht' as <-. discriminate.
  - intros j Hin. rewrite length_app. apply Hb in Hin. lia.
  - intros j t' Ht'. rewrite Hl in Ht'. destruct (decide (j = i)) as [->|]; [|eauto].
    injection Ht' as <-. cbn. unfold maxRetries. lia.
Qed.

Lemma tinv_step s inp : tinv s -> tinv (step s inp).
Proof.
  intros Hinv. destruct inp as [u text | i ok err | i | i]; unfold step.
  - apply tinv_speak; exact Hinv.
  - destruct (tasks s !! i) as [t|] eqn:Hi; [|exact Hinv].
    pose proof (ti_phase _ Hinv i t Hi) as P.
    destruct (tphase t) as [a [r|]| a | o]; try exact Hinv.
    apply tinv_after_race; auto. intros m [=].
  - destruct (tasks s !! i) as [t|] eqn:Hi; [|exact Hinv].
    pose proof (ti_phase _ Hinv i t Hi) as P.
    pose proof (ti_aborted _ Hinv i t Hi) as A.
    destruct (tphase t) as [a [r|]| a | o]; try exact Hinv.
    apply tinv_after_race; auto. intros m _ Hin. destruct (A Hin).
  - destruct (tasks s !! i) as [t|] eqn:Hi; [|exact Hinv].
    pose proof (ti_phase _ Hinv i t Hi) as P.
    pose proof (ti_aborted _ Hinv i t Hi) as A.
    destruct (tphase t) as [a [r|]| a | o]; try exact Hinv.
    + apply tinv_after_race; auto. intros m -> Hin. specialize (A Hin). cbn in A. congruence.
    + apply tinv_loop_top; auto. cbn in P. lia.
Qed.

Lemma tinv_run s ins : tinv s -> tinv (run s ins).
Proof.
  revert s. induction ins as [|inp ins IH]; intros s Hinv; [exact Hinv|].
  cbn. apply IH. apply tinv_step. exact Hinv.
Qed.

Lemma tinv_init : tinv init.
Proof.
  constructor; cbn.
  - intros u c H. rewrite lookup_empty in H. discriminate.
  - intros c t H. rewrite lookup_nil in H. discriminate.
  - intros c t a r H. rewrite lookup_nil in H. discriminate.
  - intros c [].
  - intros c t H. rewrite lookup_nil in H. discriminate.
Qed.

(** An invocation whose controller has been aborted, once it has
    returned, has returned on one of the cancellation paths: never after
    speaking, never on the text fallback, never off the end of the loop. *)
Lemma aborted_call_returns_cancelled ins c t o :
  tasks (run init ins) !! c = Some t -> tphase t = Done o ->
  is_aborted (run init ins) c = true -> o = Cancelled.
Proof.
  intros Ht Ep Ha. apply is_aborted_In in Ha.
  pose proof (ti_aborted _ (tinv_run init ins tinv_init) c t Ht Ha) as P.
  rewrite Ep in P. exact P.
Qed.

End TTSFacts.

(* ------------------------------------------------------------------ *)
(** ** Conversation store *)

Section ConversationFacts.

Import Conversations.

Lemma keepLast_firstn (l : list ConversationEntry) : keepLast l = firstn MAX_HISTORY l.
Proof.
  unfold keepLast. destruct (Nat.ltb MAX_HISTORY (length l)) eqn:H; [reflexivity|].
  apply Nat.ltb_ge in H. symmetry. apply firstn_all2. exact H.
Qed.

Lemma apply_append_user (conv : gmap string (list ConversationEntry)) (a : append) (u : string) :
  user_conversations (apply_append conv a) u =
  if String.eqb (append_user a) u
  then firstn MAX_HISTORY (append_entry a :: user_conversations conv u)
  else user_conversations conv u.
Proof.
  destruct a as [v e|v e]; simpl;
    unfold queueInsertConversation, addConversationEntry, user_conversations at 1;
    rewrite keepLast_firstn;
    destruct (String.eqb v u) eqn:E.
  - apply String.eqb_eq in E. subst v. rewrite lookup_insert_eq. reflexivity.
  - apply String.eqb_neq in E. rewrite lookup_insert_ne by exact E. reflexivity.
  - apply String.eqb_eq in E. subst v. rewrite lookup_insert_eq. reflexivity.
  - apply String.eqb_neq in E. rewrite lookup_insert_ne by exact E. reflexivity.
Qed.

Lemma appends_history (as_ : list append) (u : string)
    (conv : gmap string (list ConversationEntry)) (older : list ConversationEntry) :
  user_conversations conv u = firstn MAX_HISTORY older ->
  user_conversations (fold_left apply_append as_ conv) u =
  firstn MAX_HISTORY (rev (appended_for u as_) ++ older).
Proof.
  revert conv older; induction as_ as [|a rest IH]; intros conv older H; simpl.
  - exact H.
  - unfold appended_for. simpl.
    destruct (String.eqb (append_user a) u) eqn:E; simpl.
    + rewrite <- app_assoc. simpl. apply IH.
      rewrite apply_append_user, E, H.
      unfold MAX_HISTORY. simpl. rewrite firstn_firstn. reflexivity.
    + apply IH. rewrite apply_append_user, E. exact H.
Qed.

(** C6: from the empty store, after any interleaving of history insertions
    (by [processQueueAsync] or [addConversationEntry]) for any users, the
    list of user [u] holds exactly the 50 most recent entries appended for
    [u], newest first (older ones are evicted first), and never more than
    50. *)
Theorem history_capped_most_recent (as_ : list append) (u : string) :
  user_conversations (fold_left apply_append as_ ∅) u = firstn MAX_HISTORY (rev (appended_for u as_))
  /\ length (user_conversations (fold_left apply_append as_ ∅) u) <= MAX_HISTORY.
Proof.
  assert (H : user_conversations (fold_left apply_append as_ ∅) u =
              firstn MAX_HISTORY (rev (appended_for u as_))).
  { rewrite <- (app_nil_r (rev (appended_for u as_))).
    apply appends_history. reflexivity. }
  split; [exact H|]. rewrite H, length_firstn. lia.
Qed.

(** C8: the [/api/conversations] response is the same for two stores whose
    entries differ only in [photoData], and the photo bytes of an entry
    are what [/api/photo/:conversationId] sends for its identifier. *)
Theorem snapshot_drops_photo_payload :
  forall (conv1 conv2 : gmap string (list ConversationEntry)) (auth : option string)
         (activeUsers : gmap string Z) (liveActive : string -> bool),
    (forall u, Forall2 same_but_photo (user_conversations conv1 u) (user_conversations conv2 u)) ->
    api_conversations auth conv1 activeUsers liveActive =
      api_conversations auth conv2 activeUsers liveActive /\
    (forall u cid c p,
        find (fun c => String.eqb (id c) cid) (user_conversations conv1 u) = Some c ->
        photoData c = Some p ->
        api_photo (Some u) cid conv1 = Binary (photoMime p) (photoBuffer p)).
Proof.
  intros conv1 conv2 auth activeUsers liveActive Hsame. split.
  - destruct auth as [u|]; [|reflexivity]. simpl. f_equal.
    specialize (Hsame u). induction Hsame as [|a b l1 l2 Hab _ IH]; [reflexivity|].
    simpl. rewrite IH. f_equal.
    destruct Hab as (H1 & H2 & _ & H4 & H5 & H6 & H7 & H8 & _).
    unfold sanitize. rewrite H1, H2, H4, H5, H6, H7, H8. reflexivity.
  - intros u cid c p Hf Hp. simpl. rewrite Hf, Hp. reflexivity.
Qed.

Definition entry_with (ph : option PhotoBlob) : ConversationEntry :=
  {| id := "conv_1"; timestamp := 0; userId := "u"; question := "what is this";
     response := "a mug"; hasPhoto := true; photoData := ph; processingTime := 10;
     status := Completed; category := Some "General" |}.

Definition blob : PhotoBlob :=
  {| requestId := "conv_1"; photoMime := "image/jpeg"; photoBuffer := [Byte.x01; Byte.x02] |}.

Lemma snapshot_drops_photo_payload_witness :
  api_conversations (Some "u") {[ "u" := [entry_with (Some blob)] ]} ∅ (fun _ => false) =
    api_conversations (Some "u") {[ "u" := [entry_with None] ]} ∅ (fun _ => false) /\
  (forall u cid c p,
      find (fun c => String.eqb (id c) cid)
           (user_conversations {[ "u" := [entry_with (Some blob)] ]} u) = Some c ->
      photoData c = Some p ->
      api_photo (Some u) cid {[ "u" := [entry_with (Some blob)] ]} = Binary (photoMime p) (photoBuffer p)).
Proof.
  apply snapshot_drops_photo_payload.
  intros u. unfold user_conversations.
  destruct (decide (u = "u")) as [->|Hne].
  - rewrite !lookup_singleton_eq. simpl.
    constructor; [|constructor]. repeat split.
  - rewrite !lookup_singleton_ne by congruence. simpl. constructor.
Defined.

End ConversationFacts.

(* ------------------------------------------------------------------ *)
(** ** Guarded photo capture *)

Section PhotoFacts.

Import Orchestrator PhotoCapture.
Local Open Scope Z_scope.

(** C9: in both implementations, a call returns [null] or the camera's
    photo (a camera rejection is an input, turned into [null]); it returns
    [null] when a capture is in flight or the last success is less than
    2000 ms old; a call that passed the guards ends with the user's
    in-flight flag set to [false]; and after such a call whose capture
    failed, a new call passes both guards as soon as 2000 ms have elapsed
    since the last successful capture. *)
Theorem safePhotoCapture_total_releases :
  forall (v : variant) (u : string) (now later : Z) (cam : camera) (s : PState),
    let res := safePhotoCapture v u now later cam s in
    (snd res = None \/ exists p, cam = CameraPhoto p /\ snd res = Some p) /\
    ((default false (activePhotoRequests s !! u) = true \/
      now - default 0 (lastPhotoTime s !! u) < 2000) -> snd res = None) /\
    (default false (activePhotoRequests s !! u) = false ->
     2000 <= now - default 0 (lastPhotoTime s !! u) ->
     activePhotoRequests (fst res) !! u = Some false /\
     (forall msg now', cam = CameraError msg ->
        2000 <= now' - default 0 (lastPhotoTime (fst res) !! u) ->
        exists s', begin_capture v u now' (fst res) = inl s')).
Proof.
  intros v u now later cam s res. subst res.
  unfold safePhotoCapture, begin_capture.
  destruct (default false (activePhotoRequests s !! u)) eqn:Hact.
  - (* in flight *)
    split; [left; reflexivity|]. split; [intros _; reflexivity|]. intros H; discriminate H.
  - destruct (now - default 0 (lastPhotoTime s !! u) <? 2000) eqn:Hgap.
    + split; [left; reflexivity|]. split; [intros _; reflexivity|].
      intros _ H. apply Z.ltb_lt in Hgap. lia.
    + split; [|split].
      * destruct cam as [p|m]; simpl; [right; exists p; split; reflexivity | left; reflexivity].
      * intros [H|H]; [discriminate H|]. apply Z.ltb_ge in Hgap. lia.
      * intros _ _. split.
        -- destruct cam; simpl; apply lookup_insert_eq.
        -- intros msg now' -> Hnow'. simpl in *.
           rewrite lookup_insert_eq. simpl.
           destruct (now' - default 0 (lastPhotoTime s !! u) <? 2000) eqn:G.
           ++ apply Z.ltb_lt in G. lia.
           ++ eexists; reflexivity.
Qed.

End PhotoFacts.

(* ------------------------------------------------------------------ *)
(** ** Stop words in a live session *)

Section StopWordFacts.

Import LiveTranscription.

Lemma includes_prefixb (s w : string) : prefixb w s = true -> includes s w = true.
Proof. destruct s; simpl; intros ->; reflexivity. Qed.

Lemma includes_empty (w : string) : w <> "" -> includes "" w = false.
Proof. destruct w; [congruence|reflexivity]. Qed.

Lemma includes_cons (c : ascii) (s w : string) :
  includes s w = true -> includes (String c s) w = true.
Proof. simpl. intros ->. apply orb_true_r. Qed.

Lemma ascii_eqb_true (a b : ascii) : Ascii.eqb a b = true -> a = b.
Proof. apply Ascii.eqb_eq. Qed.

(** Trimming leading blanks keeps a substring whose first character is
    not blank. *)
Lemma includes_ltrim (s : string) (a : ascii) (w : string) :
  is_ws a = false -> includes s (String a w) = true -> includes (ltrim s) (String a w) = true.
Proof.
  intros Ha. induction s as [|c s IH]; simpl; [tauto|].
  destruct (is_ws c) eqn:Hc.
  - intros H. apply orb_true_iff in H as [H|H]; [|exact (IH H)].
    apply andb_true_iff in H as [H _]. apply ascii_eqb_true in H. congruence.
  - simpl. tauto.
Qed.

Lemma rtrim_nonempty (s : string) (c : ascii) :
  rtrim s <> "" -> rtrim (String c s) = String c (rtrim s).
Proof. simpl. destruct (rtrim s); [congruence | reflexivity]. Qed.

Lemma prefixb_rtrim (w s : string) :
  w <> "" -> rtrim w = w -> prefixb w s = true -> prefixb w (rtrim s) = true.
Proof.
  revert s; induction w as [|a w IH]; intros s Hne Hw Hp; [congruence|].
  destruct s as [|b s]; [discriminate Hp|].
  simpl in Hp. apply andb_true_iff in Hp as [Hab Hp]. apply ascii_eqb_true in Hab. subst b.
  destruct w as [|a' w'].
  - simpl in Hw. destruct (is_ws a) eqn:Ha; [discriminate Hw|].
    simpl. destruct (rtrim s); [rewrite Ha|]; simpl; rewrite Ascii.eqb_refl; reflexivity.
  - assert (Hw' : rtrim (String a' w') = String a' w').
    { simpl in Hw |- *.
      destruct (rtrim w') eqn:Er; [destruct (is_ws a'); destruct (is_ws a)|]; congruence. }
    specialize (IH s ltac:(discriminate) Hw' Hp).
    assert (Hr : rtrim s <> "") by (intros E; rewrite E in IH; discriminate IH).
    rewrite rtrim_nonempty by exact Hr. simpl. rewrite Ascii.eqb_refl. exact IH.
Qed.

(** Trimming trailing blanks keeps a non-empty substring whose last
    character is not blank. *)
Lemma includes_rtrim (s w : string) :
  w <> "" -> rtrim w = w -> includes s w = true -> includes (rtrim s) w = true.
Proof.
  intros Hne Hw. induction s as [|c s IH]; [tauto|].
  intros H. simpl in H. apply orb_true_iff in H as [H|H].
  - apply includes_prefixb. apply (prefixb_rtrim w (String c s) Hne Hw). simpl. exact H.
  - specialize (IH H).
    assert (Hr : rtrim s <> "") by (intros E; rewrite E, includes_empty in IH; congruence).
    rewrite rtrim_nonempty by exact Hr. apply includes_cons. exact IH.
Qed.

(** A word that [trim] cannot cut into. *)
Definition solid (w : string) : bool :=
  match w with
  | EmptyString => false
  | String a _ => negb (is_ws a) && String.eqb (rtrim w) w
  end.

Lemma includes_trim (s w : string) :
  solid w = true -> includes s w = true -> includes (trim s) w = true.
Proof.
  destruct w as [|a w']; [discriminate|]. simpl solid.
  intros Hs H. apply andb_true_iff in Hs as [Ha Hr].
  apply negb_true_iff in Ha. apply String.eqb_eq in Hr.
  unfold trim. apply includes_rtrim; [discriminate | exact Hr |].
  apply includes_ltrim; assumption.
Qed.

Lemma stopWords_solid : forallb solid stopWords = true.
Proof. vm_compute. reflexivity. Qed.

Lemma detectStopWord_trim (s : string) :
  detectStopWord s = true -> detectStopWord (trim s) = true /\ (0 < String.length (trim s))%nat.
Proof.
  unfold detectStopWord. intros H.
  apply existsb_exists in H as [w [Hin Hw]].
  pose proof stopWords_solid as Hsolid. rewrite forallb_forall in Hsolid.
  pose proof (includes_trim s w (Hsolid w Hin) Hw) as Ht.
  split.
  - apply existsb_exists. exists w. split; assumption.
  - destruct (trim s) as [|c r]; simpl; [|lia].
    rewrite includes_empty in Ht; [discriminate|].
    intros ->. discriminate (Hsolid _ Hin).
Qed.

(** C10: while the user's live session is active, a final transcription
    whose lower-cased text contains any stop word (bare substrings such as
    "done", "stop", "thanks", "bye", "end" included) makes the handler speak
    the goodbye message and close the live session; the text is not
    forwarded to the model. The goodbye is spoken through the session
    [onSession] stored in [listeningStates], present for the whole session. *)
Theorem stop_word_ends_live_session :
  forall (st : UserState) (text : string),
    hasActiveLiveSession st = true ->
    listeningSession st = true ->
    detectStopWord (lower text) = true ->
    handleTranscription st text true =
      (closeLiveSession st,
       ((if negb (String.eqb (trim text) "") then [BroadcastTranscription text] else [])
          ++ [SpeakTTS goodbye_msg; CloseLiveSession])%list).
Proof.
  intros st text Hlive Hls Hstop.
  destruct (detectStopWord_trim (lower text) Hstop) as [Hs Hlen].
  unfold handleTranscription. rewrite Hlive, Hls. simpl.
  replace ((0 <? String.length (trim (lower text)))%nat) with true
    by (symmetry; apply Nat.ltb_lt; exact Hlen).
  rewrite Hs. reflexivity.
Qed.

Definition live_user : UserState :=
  {| liveSession := Some {| isActive := true; hasGeminiSession := true |};
     listeningSession := true |}.

(** "Let's plan the Weekend" contains a stop word only as the "end" of "weekend". *)
Lemma stop_word_ends_live_session_witness :
  handleTranscription live_user "Let's plan the Weekend" true =
    (closeLiveSession live_user,
     ((if negb (String.eqb (trim "Let's plan the Weekend") "")
       then [BroadcastTranscription "Let's plan the Weekend"] else [])
        ++ [SpeakTTS goodbye_msg; CloseLiveSession])%list).
Proof.
  apply stop_word_ends_live_session; vm_compute; reflexivity.
Defined.

End StopWordFacts.


Section StepFacts.

Import StepTracking.

Definition steps_shape (l : list StepEntry) (p : nat) : Prop :=
  forall i st, l !! i = Some st ->
    projectId st = p /\ stepNumber st = S i /\ isCompleted st = (S i <? length l)%nat.

(** What a user's step-tracking data looks like in a reachable state:
    nothing, or one active project holding all the user's steps. *)
Definition user_inv (s : STState) (u : string) : Prop :=
  (projects_of s u = [] /\ steps_of s u = [] /\ activeProjects s !! u = None)
  \/ exists p, projects_of s u = [p] /\ isActive p = true /\ activeProjects s !! u = Some (pid p)
       /\ stepCounters s !! pid p = Some (length (steps_of s u)) /\ (pid p < nextId s)%nat
       /\ steps_shape (steps_of s u) (pid p)
       /\ totalSteps p = length (steps_of s u) /\ completedSteps p = (length (steps_of s u) - 1)%nat.

Record st_inv (s : STState) : Prop := {
  si_user : forall u, user_inv s u;
  si_distinct : forall u v p q, u <> v -> projects_of s u = [p] -> projects_of s v = [q] -> pid p <> pid q
}.

Lemma update_first_at {A} (P : A -> bool) (f : A -> A) (l : list A) k x :
  l !! k = Some x -> P x = true ->
  (forall j y, (j < k)%nat -> l !! j = Some y -> P y = false) ->
  update_first P f l = <[k := f x]> l.
Proof.
  revert k. induction l as [|a l IH]; intros k Hk Hx Hb; [discriminate|].
  destruct k as [|k]; cbn in *.
  - injection Hk as ->. rewrite Hx. reflexivity.
  - rewrite (Hb 0%nat a) by (reflexivity || lia). f_equal.
    apply IH; [exact Hk | exact Hx |]. intros j y Hj Hy. apply (Hb (S j)); [lia | exact Hy].
Qed.

Lemma find_at {A} (P : A -> bool) (l : list A) k x :
  l !! k = Some x -> P x = true ->
  (forall j y, (j < k)%nat -> l !! j = Some y -> P y = false) ->
  List.find P l = Some x.
Proof.
  revert k. induction l as [|a l IH]; intros k Hk Hx Hb; [discriminate|].
  destruct k as [|k]; cbn in *.
  - injection Hk as ->. rewrite Hx. reflexivity.
  - rewrite (Hb 0%nat a) by (reflexivity || lia).
    apply (IH k); [exact Hk | exact Hx |]. intros j y Hj Hy. apply (Hb (S j)); [lia | exact Hy].
Qed.

Lemma gocp_new s u d now :
  projects_of s u = [] -> activeProjects s !! u = None ->
  getOrCreateProject u d now s =
  (nextId s,
   {| userSteps := userSteps s;
      userProjects := <[u := [{| pid := nextId s; pname := info_name (extractProjectInfo d); puserId := u;
           description := d; ptaskType := info_type (extractProjectInfo d);
           startedAt := now; lastUpdated := now; steps := []; isActive := true;
           tags := [info_type (extractProjectInfo d)]; totalSteps := 0; completedSteps := 0;
           psafetyLevel := info_safety (extractProjectInfo d) |}]]> (userProjects s);
      activeProjects := <[u := nextId s]> (activeProjects s);
      stepCounters := <[nextId s := 0%nat]> (stepCounters s);
      nextId := S (nextId s) |}).
Proof. intros Hp Ha. unfold getOrCreateProject. rewrite Ha, Hp. reflexivity. Qed.

Lemma gocp_reuse s u d now p :
  projects_of s u = [p] -> isActive p = true -> activeProjects s !! u = Some (pid p) ->
  getOrCreateProject u d now s = (pid p, set_projects u [touch now p] s).
Proof.
  intros Hp Hact Ha. unfold getOrCreateProject. rewrite Ha, Hp. cbn.
  rewrite Nat.eqb_refl, Hact. cbn. rewrite Nat.eqb_refl. reflexivity.
Qed.

(** The effect of [createStepEntry] on a user whose single project has id
    [id] and holds [l]. *)
Lemma create_step_effect s u act resp pj conv now p :
  projects_of s u = [p] -> pid p = pj ->
  stepCounters s !! pj = Some (length (steps_of s u)) ->
  steps_shape (steps_of s u) pj ->
  let '(_, _, s2) := createStepEntry u act resp pj conv now s in
  steps_shape (steps_of s2 u) pj /\ length (steps_of s2 u) = S (length (steps_of s u)) /\
  (exists p', projects_of s2 u = [p'] /\ pid p' = pj /\ isActive p' = isActive p /\
     totalSteps p' = length (steps_of s2 u) /\
     completedSteps p' = (if (1 <? length (steps_of s2 u))%nat
                          then (length (steps_of s2 u) - 1)%nat else completedSteps p)) /\
  stepCounters s2 = <[pj := S (length (steps_of s u))]> (stepCounters s) /\
  activeProjects s2 = activeProjects s /\ nextId s2 = S (nextId s) /\
  (forall v, v <> u -> steps_of s2 v = steps_of s v /\ projects_of s2 v = projects_of s v).
Proof.
  intros Hp Hid Hc Hsh. unfold createStepEntry. rewrite Hc, Hp. cbn [default List.find]. unfold id.
  rewrite <- Hid, Nat.eqb_refl. cbn [update_first]. rewrite Nat.eqb_refl.
  set (l := steps_of s u).
  set (st := {| sid := nextId s; stepNumber := S (length l); suserId := u; action := act;
                sresponse := resp; context := buildStepContext s u (Some (pid p));
                isCompleted := false; projectId := pid p; projectName := pname p;
                shasPhoto := c_hasPhoto conv; sprocessingTime := c_processingTime conv;
                sstatus := c_status conv |}).
  fold l in Hsh, Hc. subst pj.
  assert (Hlk : forall i, (l ++ [st])%list !! i =
                  if decide (i = length l) then Some st else l !! i).
  { intros i. destruct (decide (i = length l)) as [->|Hne].
    - apply list_lookup_middle. reflexivity.
    - destruct (decide (i < length l)%nat).
      + apply lookup_app_l. exact l0.
      + rewrite lookup_app_r by lia. rewrite (lookup_ge_None_2 l i) by lia.
        apply lookup_ge_None_2. cbn. lia. }
  destruct (length l) as [|k] eqn:Ek; rewrite ?Ek in Hlk.
  - (* first step *)
    cbn. unfold steps_of, projects_of; cbn [userSteps userProjects stepCounters activeProjects nextId].
    rewrite !lookup_insert_eq. cbn [default]. unfold id.
    assert (l = []) as El by (destruct l; [reflexivity | discriminate]).
    rewrite El. cbn. split; [|split; [reflexivity|split; [|split; [|split; [|split]]]]].
    + intros i x Hx. destruct i as [|i]; [|destruct i; discriminate].
      injection Hx as <-. cbn. auto.
    + eexists. split; [reflexivity|]. cbn. repeat split.
    + reflexivity.
    + reflexivity.
    + reflexivity.
    + intros v Hv. rewrite !lookup_insert_ne by congruence. auto.
  - (* a later step: step [k] (at index [k - 1]) is marked completed *)
    assert (Hprev : exists x, l !! k = Some x) by (apply lookup_lt_is_Some; lia).
    destruct Hprev as [x Hx].
    destruct (Hsh k x Hx) as (Hxp & Hxn & Hxc).
    set (isPrev := fun st0 : StepEntry => Nat.eqb (projectId st0) (pid p) && Nat.eqb (stepNumber st0) (S (S k) - 1)).
    assert (Hbefore : forall j y, (j < k)%nat -> (l ++ [st])%list !! j = Some y -> isPrev y = false).
    { intros j y Hj Hy. rewrite Hlk in Hy. destruct (decide (j = S k)) as [|_]; [lia|].
      destruct (Hsh j y Hy) as (_ & Hyn & _). unfold isPrev. rewrite Hyn.
      replace (Nat.eqb (S j) (S (S k) - 1)) with false by (symmetry; apply Nat.eqb_neq; lia).
      apply andb_false_r. }
    assert (Hxl : (l ++ [st])%list !! k = Some x) by (rewrite Hlk; destruct (decide (k = S k)); [lia | exact Hx]).
    assert (HPx : isPrev x = true).
    { unfold isPrev. rewrite Hxp, Hxn, Nat.eqb_refl. cbn. apply Nat.eqb_eq. lia. }
    replace (1 <? S (S k))%nat with true by reflexivity.
    fold isPrev.
    rewrite (find_at isPrev _ k x Hxl HPx Hbefore).
    rewrite (update_first_at isPrev mark_done _ k x Hxl HPx Hbefore).
    cbn [update_first]. rewrite Nat.eqb_refl.
    cbn. unfold steps_of, projects_of; cbn [userSteps userProjects stepCounters activeProjects nextId].
    rewrite !lookup_insert_eq. cbn [default]. unfold id.
    rewrite length_insert, (List.length_app l [st]). cbn [length]. rewrite Ek.
    split; [|split; [lia|split; [|split; [|split; [|split]]]]].
    + intros i y Hy. rewrite length_insert, (List.length_app l [st]), Ek. cbn [length].
      rewrite (lookup_insert_at _ k _ i) in Hy by (rewrite (List.length_app l [st]), Ek; cbn; lia).
      destruct (decide (i = k)) as [->|Hik].
      * injection Hy as <-. cbn [mark_done projectId stepNumber isCompleted].
        split; [exact Hxp|]. split; [exact Hxn|].
        symmetry. apply Nat.ltb_lt. lia.
      * rewrite Hlk in Hy. destruct (decide (i = S k)) as [->|Hne].
        -- injection Hy as <-. unfold st. cbn [projectId stepNumber isCompleted].
           split; [reflexivity|]. split; [reflexivity|].
           symmetry. apply Nat.ltb_ge. lia.
        -- destruct (Hsh i y Hy) as (Hyp & Hyn & Hyc). split; [exact Hyp|]. split; [exact Hyn|].
           rewrite Hyc. apply lookup_lt_Some in Hy. rewrite Ek in Hy, Hyc |- *.
           transitivity true; [apply Nat.ltb_lt; lia | symmetry; apply Nat.ltb_lt; lia].
    + eexists. split; [reflexivity|]. cbn. repeat split; [lia|].
      replace (k + 1)%nat with (S k) by lia. cbn. lia.
    + reflexivity.
    + reflexivity.
    + reflexivity.
    + intros v Hv. rewrite !lookup_insert_ne by congruence. auto.
Qed.

Lemma user_inv_frame s s' v :
  user_inv s v -> steps_of s' v = steps_of s v -> projects_of s' v = projects_of s v ->
  activeProjects s' !! v = activeProjects s !! v ->
  (forall q, projects_of s v = [q] -> stepCounters s' !! pid q = stepCounters s !! pid q) ->
  (nextId s <= nextId s')%nat -> user_inv s' v.
Proof.
  intros [(Hp & Hs & Ha) | (q & Hp & Hact & Ha & Hc & Hlt & Hsh & Ht & Hcs)] Es Ep Ea Ec En.
  - left. rewrite Es, Ep, Ea. auto.
  - right. exists q. rewrite Es, Ep, Ea, (Ec q Hp). do 4 (split; [assumption|]). split; [lia|]. auto.
Qed.

Lemma track_step_inv c s : st_inv s -> st_inv (track_step c s).
Proof.
  intros [Hu Hd]. unfold track_step.
  destruct (detectStepRequest (call_question c) || detectStepContinuation (call_question c));
    [|split; assumption].
  set (u := call_user c). set (q := call_question c).
  destruct (Hu u) as [(Hp & Hs & Ha) | (p & Hp & Hact & Ha & Hc & Hlt & Hsh & Ht & Hcs)].
  - (* the user's first step: a project is created *)
    rewrite (gocp_new s u q (call_now c) Hp Ha).
    set (np := {| pid := nextId s; pname := info_name (extractProjectInfo q); puserId := u;
           description := q; ptaskType := info_type (extractProjectInfo q);
           startedAt := call_now c; lastUpdated := call_now c; steps := []; isActive := true;
           tags := [info_type (extractProjectInfo q)]; totalSteps := 0; completedSteps := 0;
           psafetyLevel := info_safety (extractProjectInfo q) |}).
    set (s1 := {| userSteps := userSteps s; userProjects := <[u := [np]]> (userProjects s);
                  activeProjects := <[u := nextId s]> (activeProjects s);
                  stepCounters := <[nextId s := 0%nat]> (stepCounters s);
                  nextId := S (nextId s) |}).
    assert (Hp1 : projects_of s1 u = [np]) by (unfold projects_of; cbn; rewrite lookup_insert_eq; reflexivity).
    assert (Hs1 : steps_of s1 u = []) by exact Hs.
    assert (Hc1 : stepCounters s1 !! nextId s = Some (length (steps_of s1 u)))
      by (rewrite Hs1; cbn; apply lookup_insert_eq).
    assert (Hsh1 : steps_shape (steps_of s1 u) (nextId s))
      by (rewrite Hs1; intros i x Hx; discriminate).
    pose proof (create_step_effect s1 u q (call_response c) (nextId s) (call_conv c) (call_now c) np
                  Hp1 eq_refl Hc1 Hsh1) as Heff.
    destruct (createStepEntry u q (call_response c) (nextId s) (call_conv c) (call_now c) s1)
      as [[e lk] s2].
    destruct Heff as (Hsh2 & Hl2 & (p' & Hp2 & Hid2 & Hact2 & Ht2 & Hcs2) & Hc2 & Ha2 & Hn2 & Hoth).
    rewrite Hs1 in Hl2. cbn in Hl2.
    assert (Hown : user_inv s2 u).
    { right. exists p'. rewrite Hl2 in Ht2, Hcs2 |- *. rewrite Hid2.
      split; [exact Hp2|]. split; [rewrite Hact2; reflexivity|].
      split; [rewrite Ha2; cbn; apply lookup_insert_eq|].
      split; [rewrite Hc2, Hs1; apply lookup_insert_eq|].
      split; [rewrite Hn2; cbn; lia|].
      split; [rewrite <- Hid2; rewrite Hid2; exact Hsh2|].
      split; [exact Ht2|]. rewrite Hcs2. reflexivity. }
    split.
    + intros v. destruct (decide (v = u)) as [->|Hvu]; [exact Hown|].
      destruct (Hoth v Hvu) as [Es Ep].
      apply (user_inv_frame s s2 v (Hu v)).
      * rewrite Es. reflexivity.
      * rewrite Ep. unfold projects_of; cbn. rewrite lookup_insert_ne by congruence. reflexivity.
      * rewrite Ha2; cbn. rewrite lookup_insert_ne by congruence. reflexivity.
      * intros r Hr. assert (pid r < nextId s)%nat.
        { destruct (Hu v) as [(Hr' & _) | (r' & Hr' & _ & _ & _ & Hlt' & _)];
            rewrite Hr in Hr'; [discriminate|]. injection Hr' as ->. exact Hlt'. }
        rewrite Hc2, Hs1. cbn. rewrite !lookup_insert_ne by lia. reflexivity.
      * rewrite Hn2. cbn. lia.
    + intros v w a b Hvw Ha' Hb'.
      assert (Hfresh : forall x r, x <> u -> projects_of s2 x = [r] -> pid r < nextId s /\ projects_of s x = [r]).
      { intros x r Hxu Hr. destruct (Hoth x Hxu) as [_ Ep]. rewrite Ep in Hr.
        unfold projects_of in Hr; cbn in Hr. rewrite lookup_insert_ne in Hr by congruence.
        fold (projects_of s x) in Hr. split; [|exact Hr].
        destruct (Hu x) as [(Hr' & _) | (r' & Hr' & _ & _ & _ & Hlt' & _)];
          rewrite Hr in Hr'; [discriminate|]. injection Hr' as ->. exact Hlt'. }
      destruct (decide (v = u)) as [->|Hvu]; [|destruct (decide (w = u)) as [->|Hwu]].
      * rewrite Hp2 in Ha'. injection Ha' as <-. destruct (Hfresh w b (not_eq_sym Hvw) Hb') as [Hb _].
        rewrite Hid2. lia.
      * rewrite Hp2 in Hb'. injection Hb' as <-. destruct (Hfresh v a Hvu Ha') as [Ha'' _].
        rewrite Hid2. lia.
      * destruct (Hfresh v a Hvu Ha') as [_ Ea]. destruct (Hfresh w b Hwu Hb') as [_ Eb].
        exact (Hd v w a b Hvw Ea Eb).
  - (* a later step: the active project is reused *)
    rewrite (gocp_reuse s u q (call_now c) p Hp Hact Ha).
    set (s1 := set_projects u [touch (call_now c) p] s).
    assert (Hp1 : projects_of s1 u = [touch (call_now c) p])
      by (unfold projects_of; cbn; rewrite lookup_insert_eq; reflexivity).
    assert (Hs1 : steps_of s1 u = steps_of s u) by reflexivity.
    assert (Hc1 : stepCounters s1 !! pid p = Some (length (steps_of s1 u))) by (rewrite Hs1; exact Hc).
    assert (Hsh1 : steps_shape (steps_of s1 u) (pid p)) by (rewrite Hs1; exact Hsh).
    pose proof (create_step_effect s1 u q (call_response c) (pid p) (call_conv c) (call_now c)
                  (touch (call_now c) p) Hp1 eq_refl Hc1 Hsh1) as Heff.
    destruct (createStepEntry u q (call_response c) (pid p) (call_conv c) (call_now c) s1)
      as [[e lk] s2].
    destruct Heff as (Hsh2 & Hl2 & (p' & Hp2 & Hid2 & Hact2 & Ht2 & Hcs2) & Hc2 & Ha2 & Hn2 & Hoth).
    rewrite Hs1 in Hl2.
    assert (Hown : user_inv s2 u).
    { right. exists p'. rewrite Hid2.
      split; [exact Hp2|]. split; [rewrite Hact2; exact Hact|].
      split; [rewrite Ha2; exact Ha|].
      split; [rewrite Hc2, Hs1, Hl2; apply lookup_insert_eq|].
      split; [rewrite Hn2; cbn; lia|].
      split; [exact Hsh2|].
      split; [exact Ht2|]. rewrite Hcs2, Hl2. cbn [touch completedSteps]. rewrite Hcs.
      destruct (length (steps_of s u)); reflexivity. }
    assert (Hsame : forall x, x <> u -> projects_of s2 x = projects_of s x).
    { intros x Hxu. destruct (Hoth x Hxu) as [_ Ep]. rewrite Ep.
      unfold projects_of; cbn. rewrite lookup_insert_ne by congruence. reflexivity. }
    split.
    + intros v. destruct (decide (v = u)) as [->|Hvu]; [exact Hown|].
      destruct (Hoth v Hvu) as [Es _].
      apply (user_inv_frame s s2 v (Hu v)).
      * rewrite Es. reflexivity.
      * apply Hsame, Hvu.
      * rewrite Ha2. reflexivity.
      * intros r Hr. rewrite Hc2, Hs1. rewrite lookup_insert_ne; [reflexivity|].
        intros E. apply (Hd u v p r (not_eq_sym Hvu) Hp Hr). exact E.
      * rewrite Hn2. cbn. lia.
    + intros v w a b Hvw Ha' Hb'.
      destruct (decide (v = u)) as [->|Hvu]; [|destruct (decide (w = u)) as [->|Hwu]].
      * rewrite Hp2 in Ha'. injection Ha' as <-. rewrite Hsame in Hb' by congruence.
        rewrite Hid2. exact (Hd u w p b Hvw Hp Hb').
      * rewrite Hp2 in Hb'. injection Hb' as <-. rewrite Hsame in Ha' by congruence.
        rewrite Hid2. exact (Hd v u a p Hvw Ha' Hp).
      * rewrite Hsame in Ha', Hb' by congruence. exact (Hd v w a b Hvw Ha' Hb').
Qed.

Lemma st_inv_init : st_inv st_init.
Proof.
  split.
  - intros u. left. unfold projects_of, steps_of. cbn. rewrite !lookup_empty. auto.
  - intros u v p q _ Hp. unfold projects_of in Hp. cbn in Hp. rewrite lookup_empty in Hp. discriminate.
Qed.

Lemma track_all_inv cs s : st_inv s -> st_inv (track_all cs s).
Proof.
  revert s. induction cs as [|c cs IH]; intros s Hs; cbn; [exact Hs|].
  apply IH, track_step_inv, Hs.
Qed.

End StepFacts.


Section StepTheorems.

Import StepTracking.

Lemma map_lookup {A B} (f : A -> B) (l : list A) i : map f l !! i = option_map f (l !! i).
Proof. revert i. induction l as [|a l IH]; intros [|i]; cbn; auto. Qed.

Lemma shape_lists l p :
  steps_shape l p ->
  map stepNumber l = seq 1 (length l) /\
  map isCompleted l = map (fun i => (i <? length l)%nat) (seq 1 (length l)) /\
  Forall (fun st => projectId st = p) l.
Proof.
  intros Hsh. split; [|split].
  - apply list_eq. intros i. rewrite map_lookup. destruct (l !! i) as [x|] eqn:E.
    + destruct (Hsh i x E) as (_ & Hn & _). apply lookup_lt_Some in E.
      rewrite lookup_seq_lt by exact E. cbn. rewrite Hn. reflexivity.
    + apply lookup_ge_None in E. rewrite lookup_seq_ge by exact E. reflexivity.
  - apply list_eq. intros i. rewrite !map_lookup. destruct (l !! i) as [x|] eqn:E.
    + destruct (Hsh i x E) as (_ & _ & Hc). apply lookup_lt_Some in E.
      rewrite lookup_seq_lt by exact E. cbn. rewrite Hc. reflexivity.
    + apply lookup_ge_None in E. rewrite lookup_seq_ge by exact E. reflexivity.
  - apply Forall_lookup_2. intros i x Hx. apply (Hsh i x Hx).
Qed.

Lemma filter_all {A} (f : A -> bool) (l : list A) :
  (forall x, In x l -> f x = true) -> List.filter f l = l.
Proof.
  induction l as [|a l IH]; intros H; cbn; [reflexivity|].
  rewrite (H a (or_introl eq_refl)). f_equal. apply IH. intros x Hx. apply H. right. exact Hx.
Qed.

Lemma length_filter_map {A} (f : A -> bool) (l : list A) :
  length (List.filter f l) = length (List.filter (fun b => b) (map f l)).
Proof. induction l as [|a l IH]; cbn; [reflexivity|]. destruct (f a); cbn; auto. Qed.

Lemma shape_completed_count l p :
  steps_shape l p -> length (List.filter isCompleted l) = (length l - 1)%nat.
Proof.
  intros Hsh. destruct (shape_lists l p Hsh) as (_ & Hc & _).
  rewrite length_filter_map, Hc, <- length_filter_map.
  destruct (length l) as [|m]; [reflexivity|].
  rewrite seq_S, List.filter_app, List.length_app. cbn [List.filter].
  replace (1 + m <? S m)%nat with false by (symmetry; apply Nat.ltb_ge; lia).
  rewrite filter_all, length_seq; [cbn; lia|].
  intros x Hx. apply in_seq in Hx. apply Nat.ltb_lt. lia.
Qed.

Lemma st_inv_reach cs : st_inv (track_all cs st_init).
Proof. apply track_all_inv, st_inv_init. Qed.

(** A step-triggering question adds exactly one step to its user and
    leaves every other user's steps alone. *)
Lemma track_step_adds_one c s :
  st_inv s -> detectStepRequest (call_question c) || detectStepContinuation (call_question c) = true ->
  length (steps_of (track_step c s) (call_user c)) = S (length (steps_of s (call_user c))) /\
  (forall v, v <> call_user c -> steps_of (track_step c s) v = steps_of s v).
Proof.
  intros [Hu Hd] Htr. unfold track_step. rewrite Htr.
  set (u := call_user c). set (q := call_question c).
  destruct (Hu u) as [(Hp & Hs & Ha) | (p & Hp & Hact & Ha & Hc & Hlt & Hsh & Ht & Hcs)].
  - rewrite (gocp_new s u q (call_now c) Hp Ha).
    match goal with |- context [createStepEntry _ _ _ _ _ _ ?t] => set (s1 := t) end.
    assert (Hp1 : exists np, projects_of s1 u = [np] /\ pid np = nextId s)
      by (eexists; unfold projects_of; cbn; rewrite lookup_insert_eq; split; reflexivity).
    destruct Hp1 as [np [Hp1 Hid]].
    assert (Hs1 : steps_of s1 u = steps_of s u) by reflexivity.
    assert (Hc1 : stepCounters s1 !! nextId s = Some (length (steps_of s1 u)))
      by (rewrite Hs1, Hs; cbn; apply lookup_insert_eq).
    assert (Hsh1 : steps_shape (steps_of s1 u) (nextId s))
      by (rewrite Hs1, Hs; intros i x Hx; discriminate).
    pose proof (create_step_effect s1 u q (call_response c) (nextId s) (call_conv c) (call_now c) np
                  Hp1 Hid Hc1 Hsh1) as Heff.
    destruct (createStepEntry u q (call_response c) (nextId s) (call_conv c) (call_now c) s1)
      as [[e lk] s2].
    destruct Heff as (_ & Hl2 & _ & _ & _ & _ & Hoth).
    split; [rewrite Hl2; reflexivity|]. intros v Hv. apply (Hoth v Hv).
  - rewrite (gocp_reuse s u q (call_now c) p Hp Hact Ha).
    set (s1 := set_projects u [touch (call_now c) p] s).
    assert (Hp1 : projects_of s1 u = [touch (call_now c) p])
      by (unfold projects_of; cbn; rewrite lookup_insert_eq; reflexivity).
    assert (Hs1 : steps_of s1 u = steps_of s u) by reflexivity.
    assert (Hc1 : stepCounters s1 !! pid p = Some (length (steps_of s1 u))) by (rewrite Hs1; exact Hc).
    assert (Hsh1 : steps_shape (steps_of s1 u) (pid p)) by (rewrite Hs1; exact Hsh).
    pose proof (create_step_effect s1 u q (call_response c) (pid p) (call_conv c) (call_now c)
                  (touch (call_now c) p) Hp1 eq_refl Hc1 Hsh1) as Heff.
    destruct (createStepEntry u q (call_response c) (pid p) (call_conv c) (call_now c) s1)
      as [[e lk] s2].
    destruct Heff as (_ & Hl2 & _ & _ & _ & _ & Hoth).
    split; [rewrite Hl2; reflexivity|]. intros v Hv. apply (Hoth v Hv).
Qed.

(** Whatever sequence of completed requests is tracked, a user never has
    more than one project: either nothing is recorded for them, or they
    have exactly one project, which is active, is the user's active
    project, and owns every step the user has. *)
Theorem track_all_single_project cs u :
  let s := track_all cs st_init in
  (projects_of s u = [] /\ steps_of s u = []) \/
  (exists p, projects_of s u = [p] /\ isActive p = true /\ activeProjects s !! u = Some (pid p) /\
             Forall (fun st => projectId st = pid p) (steps_of s u)).
Proof.
  cbn zeta. destruct (si_user _ (st_inv_reach cs) u)
    as [(Hp & Hs & _) | (p & Hp & Hact & Ha & _ & _ & Hsh & _)].
  - left. auto.
  - right. exists p. destruct (shape_lists _ _ Hsh) as (_ & _ & Hf). auto.
Qed.

(** A user's recorded steps are numbered 1, 2, ..., n in order, and all
    of them except the last one are marked completed. *)
Theorem track_all_step_numbering cs u :
  let l := steps_of (track_all cs st_init) u in
  map stepNumber l = seq 1 (length l) /\
  map isCompleted l = map (fun i => (i <? length l)%nat) (seq 1 (length l)).
Proof.
  cbn zeta. destruct (si_user _ (st_inv_reach cs) u)
    as [(_ & Hs & _) | (p & _ & _ & _ & _ & _ & Hsh & _)].
  - rewrite Hs. split; reflexivity.
  - destruct (shape_lists _ _ Hsh) as (H1 & H2 & _). auto.
Qed.

(** The project counters agree with the steps: with n steps recorded for
    the user, the project's [totalSteps] is n, its [completedSteps] is
    n - 1, and the completed count served by [/api/steps] is n - 1. *)
Theorem track_all_counters cs u :
  let s := track_all cs st_init in
  let n := length (steps_of s u) in
  Forall (fun p => totalSteps p = n /\ completedSteps p = (n - 1)%nat) (projects_of s u) /\
  api_completed s u = (n - 1)%nat.
Proof.
  cbn zeta. unfold api_completed. destruct (si_user _ (st_inv_reach cs) u)
    as [(Hp & Hs & _) | (p & Hp & _ & _ & _ & _ & Hsh & Ht & Hcs)].
  - rewrite Hp, Hs. split; [constructor | reflexivity].
  - rewrite Hp. split; [constructor; [auto | constructor] |].
    exact (shape_completed_count _ _ Hsh).
Qed.

(** Any question that is shorter than 15 characters once lowercased and
    trimmed ("thanks", "hello") is recorded as a new step of the user's
    project; no other user's steps change. *)
Theorem track_short_question_is_step cs c :
  (String.length (trim (lower (call_question c))) < 15)%nat ->
  let s := track_all cs st_init in
  length (steps_of (track_step c s) (call_user c)) = S (length (steps_of s (call_user c))) /\
  (forall v, v <> call_user c -> steps_of (track_step c s) v = steps_of s v).
Proof.
  intros Hlen. cbn zeta. apply track_step_adds_one; [apply st_inv_reach|].
  unfold detectStepContinuation. cbv zeta.
  rewrite (proj2 (Nat.ltb_lt _ _) Hlen). rewrite !orb_true_r. reflexivity.
Qed.

Lemma track_short_question_is_step_witness :
  (String.length (trim (lower "Thanks")) < 15)%nat /\
  let c := {| call_user := "u"; call_question := "Thanks"; call_response := "You're welcome";
              call_conv := {| c_hasPhoto := false; c_processingTime := 0; c_status := "completed" |};
              call_now := 0 |} in
  let s := track_all [] st_init in
  length (steps_of (track_step c s) (call_user c)) = S (length (steps_of s (call_user c))) /\
  (forall v, v <> call_user c -> steps_of (track_step c s) v = steps_of s v).
Proof.
  split; [apply Nat.ltb_lt; vm_compute; reflexivity|].
  apply (track_short_question_is_step [] {| call_user := "u"; call_question := "Thanks";
           call_response := "You're welcome";
           call_conv := {| c_hasPhoto := false; c_processingTime := 0; c_status := "completed" |};
           call_now := 0 |}).
  apply Nat.ltb_lt; vm_compute; reflexivity.
Defined.

End StepTheorems.


Section TruncationFacts.

Import TTSTruncation.

Lemma last_index_from_spec c s : forall i acc,
  (last_index_from c s i acc = acc /\ forall k, String.get k s <> Some c) \/
  (exists k, last_index_from c s i acc = (i + Z.of_nat k)%Z /\ String.get k s = Some c /\
             forall j, (k < j)%nat -> String.get j s <> Some c).
Proof.
  induction s as [|d s IH]; intros i acc; cbn.
  - left. split; [reflexivity|]. intros [|k]; discriminate.
  - destruct (IH (i + 1)%Z (if Ascii.eqb d c then i else acc)) as [[E H]|(k & E & Hk & Ha)].
    + rewrite E. destruct (Ascii.eqb_spec d c) as [->|Hne].
      * right. exists 0%nat. split; [lia|]. split; [reflexivity|].
        intros [|j] Hj; [lia|]. cbn. apply H.
      * left. split; [reflexivity|]. intros [|k]; cbn; [congruence | apply H].
    + right. exists (S k). rewrite E. split; [lia|]. split; [exact Hk|].
      intros [|j] Hj; [lia|]. cbn. apply Ha. lia.
Qed.

Lemma lastIndexOf_bound c s k : String.get k s = Some c -> (Z.of_nat k <= lastIndexOf s c)%Z.
Proof.
  intros Hk. unfold lastIndexOf.
  destruct (last_index_from_spec c s 0 (-1)) as [[_ H]|(k' & E & Hk' & Ha)]; [exfalso; exact (H k Hk)|].
  rewrite E. destruct (Nat.lt_ge_cases k' k) as [Hlt|Hge]; [exfalso; exact (Ha k Hlt Hk)|]. lia.
Qed.

Lemma lastIndexOf_cases c s :
  lastIndexOf s c = (-1)%Z \/ exists k, lastIndexOf s c = Z.of_nat k /\ String.get k s = Some c.
Proof.
  unfold lastIndexOf.
  destruct (last_index_from_spec c s 0 (-1)) as [[E _]|(k & E & Hk & _)]; [left; exact E|].
  right. exists k. split; [lia | exact Hk].
Qed.

Lemma sentence_end_bound t k ch :
  String.get k t = Some ch -> is_term ch = true -> (Z.of_nat k <= lastSentenceEnd t)%Z.
Proof.
  intros Hk Ht. unfold lastSentenceEnd, is_term in *.
  destruct (Ascii.eqb_spec ch ".") as [->|_]; [pose proof (lastIndexOf_bound _ _ _ Hk); lia|].
  destruct (Ascii.eqb_spec ch "!") as [->|_]; [pose proof (lastIndexOf_bound _ _ _ Hk); lia|].
  destruct (Ascii.eqb_spec ch "?") as [->|_]; [pose proof (lastIndexOf_bound _ _ _ Hk); lia|].
  discriminate.
Qed.

Lemma sentence_end_cases t :
  lastSentenceEnd t = (-1)%Z \/
  exists k ch, lastSentenceEnd t = Z.of_nat k /\ String.get k t = Some ch /\ is_term ch = true.
Proof.
  unfold lastSentenceEnd.
  destruct (lastIndexOf_cases "." t) as [E1|(k1 & E1 & H1)];
  destruct (lastIndexOf_cases "!" t) as [E2|(k2 & E2 & H2)];
  destruct (lastIndexOf_cases "?" t) as [E3|(k3 & E3 & H3)];
  rewrite ?E1, ?E2, ?E3;
  repeat match goal with
  | |- context [Z.max ?a ?b] => destruct (Z.max_spec a b) as [[_ ->]|[_ ->]]
  end;
  first [ left; reflexivity
        | right; eexists; eexists; split; [reflexivity|]; split; [eassumption | reflexivity]
        | lia ].
Qed.

Lemma string_length_app (a b : string) : String.length (a ++ b) = (String.length a + String.length b)%nat.
Proof. induction a as [|c a IH]; simpl; [reflexivity | rewrite IH; reflexivity]. Qed.

Lemma get_lt k s c : String.get k s = Some c -> (k < String.length s)%nat.
Proof.
  revert k. induction s as [|d s IH]; intros [|k] H; cbn in *; try discriminate; [lia|].
  apply IH in H. lia.
Qed.

Lemma substring0_length_le n s : (String.length (String.substring 0 n s) <= n)%nat.
Proof.
  revert n. induction s as [|c s IH]; intros [|n]; cbn; try lia. specialize (IH n). lia.
Qed.

Lemma substring0_length n s : (n <= String.length s)%nat -> String.length (String.substring 0 n s) = n.
Proof.
  revert n. induction s as [|c s IH]; intros [|n] Hn; cbn in *; try lia. rewrite IH by lia. reflexivity.
Qed.

Lemma substring0_get k n s : (k < n)%nat -> String.get k (String.substring 0 n s) = String.get k s.
Proof. intros Hk. rewrite substring_correct1 by exact Hk. rewrite Nat.add_0_r. reflexivity. Qed.

Lemma substring0_substring0 m n s :
  (m <= n)%nat -> String.substring 0 m (String.substring 0 n s) = String.substring 0 m s.
Proof.
  revert m n. induction s as [|c s IH]; intros [|m] [|n] H; cbn; try reflexivity; try lia.
  rewrite IH by lia. reflexivity.
Qed.

Lemma split_on_nonempty c s : split_on c s <> [].
Proof.
  destruct s as [|d s]; cbn; [discriminate|].
  destruct (Ascii.eqb d c); [discriminate|]. destruct (split_on c s); discriminate.
Qed.

Lemma split_on_none c s : (forall k, String.get k s <> Some c) -> split_on c s = [s].
Proof.
  induction s as [|d s IH]; intros H; cbn; [reflexivity|].
  destruct (Ascii.eqb_spec d c) as [->|_]; [exfalso; exact (H 0%nat eq_refl)|].
  rewrite IH; [reflexivity|]. intros k. exact (H (S k)).
Qed.

Lemma split_on_app c a b : split_on c (a ++ String c b) = (split_on c a ++ split_on c b)%list.
Proof.
  induction a as [|d a IH]; simpl.
  - rewrite Ascii.eqb_refl. reflexivity.
  - rewrite IH. destruct (Ascii.eqb d c); [reflexivity|].
    pose proof (split_on_nonempty c a) as Hne.
    destruct (split_on c a); [contradiction | reflexivity].
Qed.

Lemma concat_split_on c s : String.concat (String c EmptyString) (split_on c s) = s.
Proof.
  induction s as [|d s IH]; cbn; [reflexivity|].
  pose proof (split_on_nonempty c s) as Hne.
  destruct (Ascii.eqb_spec d c) as [->|_].
  - destruct (split_on c s) as [|w ws]; [contradiction|]. cbn. rewrite <- IH. reflexivity.
  - destruct (split_on c s) as [|w ws]; [contradiction|].
    destruct ws as [|w' ws]; cbn in *; rewrite <- IH; reflexivity.
Qed.

Lemma last_occurrence c s :
  (exists a b, s = a ++ String c b /\ forall k, String.get k b <> Some c) \/
  (forall k, String.get k s <> Some c).
Proof.
  induction s as [|d s IH].
  - right. intros [|k]; discriminate.
  - destruct IH as [(a & b & -> & Hb)|Hn].
    + left. exists (String d a), b. split; [reflexivity | exact Hb].
    + destruct (Ascii.eqb_spec d c) as [->|Hne].
      * left. exists EmptyString, s. split; [reflexivity | exact Hn].
      * right. intros [|k]; cbn; [congruence | apply Hn].
Qed.

(** The word-boundary fallback: everything before the last space, then a
    period; just a period when there is no space. *)
Lemma word_cut t :
  (exists a b, t = a ++ String " " b /\ (forall k, String.get k b <> Some " "%char) /\
     String.concat " " (removelast (split_on " " t)) ++ "." = a ++ ".") \/
  ((forall k, String.get k t <> Some " "%char) /\
     String.concat " " (removelast (split_on " " t)) ++ "." = ".").
Proof.
  destruct (last_occurrence " " t) as [(a & b & -> & Hb)|Hn].
  - left. exists a, b. split; [reflexivity|]. split; [exact Hb|].
    rewrite split_on_app, (split_on_none _ b Hb), removelast_last, concat_split_on. reflexivity.
  - right. split; [exact Hn|]. rewrite (split_on_none _ t Hn). reflexivity.
Qed.

Fixpoint rep_char (n : nat) (c : ascii) : string :=
  match n with O => EmptyString | S n => String c (rep_char n c) end.

(** the text sent to speech never exceeds [maxTTSLength] = 300
    characters, whatever the buffered response. *)
Theorem tts_text_length r : (String.length (tts_text r) <= maxTTSLength)%nat.
Proof.
  unfold tts_text. destruct (Nat.ltb_spec maxTTSLength (String.length r)) as [Hl|Hl]; [|exact Hl].
  set (t := String.substring 0 maxTTSLength r).
  assert (Ht : String.length t = maxTTSLength) by (apply substring0_length; lia).
  destruct (Z.ltb_spec 100 (lastSentenceEnd t)) as [Hs|Hs].
  - destruct (sentence_end_cases t) as [E|(k & ch & E & Hk & _)]; [lia|].
    apply get_lt in Hk. rewrite E, Nat2Z.id.
    pose proof (substring0_length_le (k + 1) t). lia.
  - destruct (word_cut t) as [(a & b & Ea & _ & ->)|(_ & ->)]; [|cbn; unfold maxTTSLength; lia].
    rewrite string_length_app. rewrite Ea, string_length_app in Ht. cbn in Ht |- *. lia.
Qed.

(** a response longer than 300 characters with a '.', '!' or '?' at
    some position between 101 and 299 is spoken up to and including the
    last such terminator among its first 300 characters. *)
Theorem tts_text_sentence_cut r :
  (maxTTSLength < String.length r)%nat ->
  (exists k ch, (100 < k < 300)%nat /\ String.get k r = Some ch /\ is_term ch = true) ->
  exists k ch, tts_text r = String.substring 0 (S k) r /\ (100 < k < 300)%nat /\
    String.get k r = Some ch /\ is_term ch = true /\
    (forall j ch', (k < j < 300)%nat -> String.get j r = Some ch' -> is_term ch' = false).
Proof.
  intros Hl (k0 & ch0 & Hk0 & Hg0 & Ht0). unfold tts_text.
  rewrite (proj2 (Nat.ltb_lt _ _) Hl).
  set (t := String.substring 0 maxTTSLength r).
  assert (Hg : forall j, (j < 300)%nat -> String.get j t = String.get j r)
    by (intros j Hj; apply substring0_get; exact Hj).
  assert (Hb0 := sentence_end_bound t k0 ch0 ltac:(rewrite Hg by lia; exact Hg0) Ht0).
  rewrite (proj2 (Z.ltb_lt 100 _)) by lia.
  destruct (sentence_end_cases t) as [E|(k & ch & E & Hk & Htk)]; [lia|].
  assert (Hk300 : (k < 300)%nat)
    by (apply get_lt in Hk; pose proof (substring0_length_le maxTTSLength r) as Htl; fold t in Htl;
        unfold maxTTSLength in Htl; lia).
  exists k, ch. rewrite E, Nat2Z.id, Nat.add_1_r. split.
  { apply substring0_substring0. unfold maxTTSLength. lia. }
  split; [lia|]. split; [rewrite <- Hg by lia; exact Hk|]. split; [exact Htk|].
  intros j ch' Hj Hgj. destruct (is_term ch') eqn:Ej; [|reflexivity].
  rewrite <- Hg in Hgj by lia. pose proof (sentence_end_bound t j ch' Hgj Ej). lia.
Qed.

Lemma tts_text_sentence_cut_witness :
  let r := (rep_char 150 "a" ++ String "." (rep_char 150 "b"))%string in
  (maxTTSLength < String.length r)%nat /\
  (exists k ch, (100 < k < 300)%nat /\ String.get k r = Some ch /\ is_term ch = true) /\
  exists k ch, tts_text r = String.substring 0 (S k) r /\ (100 < k < 300)%nat /\
    String.get k r = Some ch /\ is_term ch = true /\
    (forall j ch', (k < j < 300)%nat -> String.get j r = Some ch' -> is_term ch' = false).
Proof.
  cbv zeta.
  assert (Hl : (maxTTSLength < String.length (rep_char 150 "a" ++ String "." (rep_char 150 "b")))%nat)
    by (apply Nat.ltb_lt; vm_compute; reflexivity).
  assert (Hx : exists k ch, (100 < k < 300)%nat /\
     String.get k (rep_char 150 "a" ++ String "." (rep_char 150 "b")) = Some ch /\ is_term ch = true)
    by (exists 150%nat, "."%char; split; [lia | split; vm_compute; reflexivity]).
  split; [exact Hl|]. split; [exact Hx|].
  exact (tts_text_sentence_cut _ Hl Hx).
Defined.

(** a response longer than 300 characters with no '.', '!' or '?' at
    positions 101 to 299 is cut after its last space among the first 300
    characters and ended with a period; when those 300 characters hold
    no space, only "." is spoken. *)
Theorem tts_text_word_cut r :
  (maxTTSLength < String.length r)%nat ->
  forallb (fun k => match String.get k r with Some ch => negb (is_term ch) | None => true end)
          (seq 101 199) = true ->
  let t := String.substring 0 maxTTSLength r in
  (exists a b, t = a ++ String " " b /\ (forall k, String.get k b <> Some " "%char) /\
               tts_text r = a ++ ".") \/
  ((forall k, String.get k t <> Some " "%char) /\ tts_text r = ".").
Proof.
  intros Hl Hn t. unfold tts_text. rewrite (proj2 (Nat.ltb_lt _ _) Hl). fold t.
  replace (100 <? lastSentenceEnd t)%Z with false.
  { exact (word_cut t). }
  symmetry. apply Z.ltb_ge.
  destruct (sentence_end_cases t) as [E|(k & ch & E & Hk & Htk)]; [lia|].
  assert (Hk300 : (k < 300)%nat)
    by (apply get_lt in Hk; pose proof (substring0_length_le maxTTSLength r) as Htl; fold t in Htl;
        unfold maxTTSLength in Htl; lia).
  rewrite E. destruct (Nat.le_gt_cases k 100) as [Hle|Hgt]; [lia|].
  unfold t in Hk. rewrite substring0_get in Hk by exact Hk300.
  apply forallb_forall with (x := k) in Hn; [|apply in_seq; lia].
  rewrite Hk, Htk in Hn. discriminate.
Qed.

Lemma tts_text_word_cut_witness :
  let r := rep_char 301 "x" in
  (maxTTSLength < String.length r)%nat /\
  forallb (fun k => match String.get k r with Some ch => negb (is_term ch) | None => true end)
          (seq 101 199) = true /\
  let t := String.substring 0 maxTTSLength r in
  ((exists a b, t = a ++ String " " b /\ (forall k, String.get k b <> Some " "%char) /\
               tts_text r = a ++ ".") \/
   ((forall k, String.get k t <> Some " "%char) /\ tts_text r = ".")).
Proof.
  cbv zeta.
  assert (Hl : (maxTTSLength < String.length (rep_char 301 "x"))%nat)
    by (apply Nat.ltb_lt; vm_compute; reflexivity).
  assert (Hn : forallb (fun k => match String.get k (rep_char 301 "x") with
                                 | Some ch => negb (is_term ch) | None => true end)
                       (seq 101 199) = true) by (vm_compute; reflexivity).
  split; [exact Hl|]. split; [exact Hn|].
  exact (tts_text_word_cut _ Hl Hn).
Defined.

End TruncationFacts.


Section SpeechRetryFacts.

Import SpeechRetry.

Definition spoken (r : speak_result) : bool := match r with Spoken => true | _ => false end.

(** [speakResponseWithRetry] speaks the response at most twice,
    stopping at the first success, and always shows "AI: " followed by the
    response exactly once: for 4 s when an attempt succeeded, for 6 s when
    both failed. *)
Theorem speakResponseWithRetry_shows_once env response :
  let tr := speakResponseWithRetry env response in
  (1 <= length (List.filter is_speak tr) <= 2)%nat /\
  List.filter is_show tr =
    [ShowTextWall ("AI: " ++ response)
       (if spoken (env 1%nat) || spoken (env 2%nat) then 4000 else 6000)] /\
  (spoken (env 1%nat) = true -> length (List.filter is_speak tr) = 1%nat).
Proof.
  unfold speakResponseWithRetry, response_maxRetries. cbn zeta.
  destruct (env 1%nat) eqn:E1; destruct (env 2%nat) eqn:E2; cbn;
    rewrite ?E1, ?E2; cbn; repeat split; try lia; try discriminate; reflexivity.
Qed.

(** [speakWithRetry] only ever calls [speak] with its message and
    sleeps 500 ms between attempts; it tries until the first success, at
    most 3 times, and never falls back to showing text. *)
Theorem speakWithRetry_attempts env message :
  let tr := speakWithRetry env message in
  let n := length (List.filter is_speak tr) in
  Forall (fun e => e = Speak message \/ e = Sleep 500) tr /\
  (1 <= n <= 3)%nat /\
  (forall a, (1 <= a < n)%nat -> spoken (env a) = false) /\
  (spoken (env n) = true \/ n = 3%nat).
Proof.
  unfold speakWithRetry, wake_maxRetries. cbn.
  destruct (env 1%nat) eqn:E1; destruct (env 2%nat) eqn:E2; destruct (env 3%nat) eqn:E3; cbn;
    (split; [repeat constructor; auto|]; split; [lia|]; split;
     [ intros a Ha; destruct a as [|[|[|a]]]; try lia; rewrite ?E1, ?E2; reflexivity
     | rewrite ?E1, ?E2, ?E3; auto ]).
Qed.

End SpeechRetryFacts.


Section SSEFacts.

Import SSE.

Definition connects_as (u : string) (e : event) : bool :=
  match e with Connect a => String.eqb (sse_key a) u | _ => false end.

Definition delivered_to (u : string) (o : output) : bool :=
  match o with Delivered _ v _ => String.eqb v u | _ => false end.

Lemma run_app s es1 es2 :
  run s (es1 ++ es2)%list =
  let '(s1, o1) := run s es1 in let '(s2, o2) := run s1 es2 in (s2, (o1 ++ o2)%list).
Proof.
  revert s. induction es1 as [|e es1 IH]; intros s; cbn.
  - destruct (run s es2). reflexivity.
  - destruct (step s e) as [s1 o1]. rewrite IH.
    destruct (run s1 es1) as [s2 o2]. destruct (run s2 es2) as [s3 o3].
    rewrite app_assoc. reflexivity.
Qed.

(** Once a user key has no registered connection, nothing is delivered
    to it before a connection for that key is opened again. *)
Lemma silent_run s u es :
  sseClients s !! u = None -> Forall (fun e => connects_as u e = false) es ->
  sseClients (fst (run s es)) !! u = None /\ List.filter (delivered_to u) (snd (run s es)) = [].
Proof.
  revert s. induction es as [|e es IH]; intros s Hs Hf; cbn; [auto|].
  inversion Hf as [|? ? He Hf']; subst.
  assert (Hs1 : sseClients (fst (step s e)) !! u = None /\ List.filter (delivered_to u) (snd (step s e)) = []).
  { destruct e as [a|c|v d th]; cbn.
    - cbn in He. rewrite lookup_insert_ne; [auto|].
      intros E. rewrite E, String.eqb_refl in He. discriminate.
    - destruct (handlers s !! c) as [v|]; cbn; [|auto].
      destruct (decide (v = u)) as [->|Hne]; [rewrite lookup_delete_eq; auto|].
      rewrite lookup_delete_ne by congruence. auto.
    - destruct (decide (v = u)) as [->|Hne]; [rewrite Hs; auto|].
      destruct (sseClients s !! v) as [c|]; cbn; [|auto].
      destruct th; cbn.
      + rewrite lookup_delete_ne by congruence. auto.
      + split; [exact Hs|]. destruct (String.eqb_spec v u); [contradiction | reflexivity]. }
  destruct (step s e) as [s1 o1]. cbn in Hs1. destruct Hs1 as [Hs1 Ho1].
  destruct (IH s1 Hs1 Hf') as [IH1 IH2].
  destruct (run s1 es) as [s2 o2]. cbn in *. split; [exact IH1|].
  rewrite List.filter_app, Ho1, IH2. reflexivity.
Qed.

(** when a user opens a second event stream and the first one then
    closes, the first stream's close handler removes the user's entry,
    which is the second stream: from then on no broadcast for that user
    is delivered, although the second stream was never closed, until the
    user connects again. Both streams of an unauthenticated viewer fall
    under the same key "anonymous". *)
Theorem sse_older_close_drops_newer s a b es :
  sse_key a = sse_key b ->
  Forall (fun e => connects_as (sse_key a) e = false) es ->
  let out := snd (run s ([Connect a; Connect b; Close (nextConn s)] ++ es)%list) in
  In (Greeting (S (nextConn s)) (sse_key a)) out /\
  List.filter (delivered_to (sse_key a)) out = [].
Proof.
  intros Hab Hes. cbn zeta. rewrite run_app.
  cbn [run step]. cbn [nextConn handlers sseClients]. rewrite <- Hab.
  set (u := sse_key a). set (c := nextConn s).
  rewrite lookup_insert_ne by lia. rewrite lookup_insert_eq.
  set (s3 := {| sseClients := delete u (<[u:=S c]> (<[u:=c]> (sseClients s)));
                handlers := <[S c:=u]> (<[c:=u]> (handlers s)); nextConn := S (S c) |}).
  assert (H3 : sseClients s3 !! u = None) by (cbn; apply lookup_delete_eq).
  destruct (silent_run s3 u es H3 Hes) as [_ Hq].
  destruct (run s3 es) as [s4 o4]. cbn in Hq |- *. split.
  - right. left. reflexivity.
  - exact Hq.
Qed.

Lemma sse_older_close_drops_newer_witness :
  let s := sse_init in let a := None in let b := Some "" in
  let es := [Broadcast "anonymous" "step-created" false] in
  sse_key a = sse_key b /\
  Forall (fun e => connects_as (sse_key a) e = false) es /\
  let out := snd (run s ([Connect a; Connect b; Close (nextConn s)] ++ es)%list) in
  In (Greeting (S (nextConn s)) (sse_key a)) out /\
  List.filter (delivered_to (sse_key a)) out = [].
Proof.
  cbv zeta.
  assert (H1 : sse_key None = sse_key (Some "")) by reflexivity.
  assert (H2 : Forall (fun e => connects_as (sse_key None) e = false)
                 [Broadcast "anonymous" "step-created" false]) by (repeat constructor).
  split; [exact H1|]. split; [exact H2|].
  exact (sse_older_close_drops_newer sse_init None (Some "") _ H1 H2).
Defined.

(** when writing an event to a user's stream throws, [broadcastSSE]
    removes the user's entry: every later broadcast for that user is
    dropped until the user opens a new stream. *)
Theorem sse_failed_write_unregisters s u c data es :
  sseClients s !! u = Some c ->
  Forall (fun e => connects_as u e = false) es ->
  List.filter (delivered_to u) (snd (run s (Broadcast u data true :: es))) = [].
Proof.
  intros Hc Hes. cbn [run step]. rewrite Hc.
  set (s1 := {| sseClients := delete u (sseClients s); handlers := handlers s; nextConn := nextConn s |}).
  assert (H1 : sseClients s1 !! u = None) by (cbn; apply lookup_delete_eq).
  destruct (silent_run s1 u es H1 Hes) as [_ Hq].
  destruct (run s1 es) as [s2 o2]. exact Hq.
Qed.

Lemma sse_failed_write_unregisters_witness :
  let s := fst (run sse_init [Connect (Some "u")]) in
  sseClients s !! "u" = Some 0%nat /\
  Forall (fun e => connects_as "u" e = false) [Broadcast "u" "b" false] /\
  List.filter (delivered_to "u") (snd (run s (Broadcast "u" "a" true :: [Broadcast "u" "b" false]))) = [].
Proof.
  cbv zeta.
  assert (H1 : sseClients (fst (run sse_init [Connect (Some "u")])) !! "u" = Some 0%nat)
    by (vm_compute; reflexivity).
  assert (H2 : Forall (fun e => connects_as "u" e = false) [Broadcast "u" "b" false]) by (repeat constructor).
  split; [exact H1|]. split; [exact H2|].
  exact (sse_failed_write_unregisters _ "u" 0%nat "a" _ H1 H2).
Defined.

End SSEFacts.


Section WakeFacts.

Import WakeListening.

Definition not_listening (s : WState) : Prop :=
  match listening s with Some e => isListening e = false | None => True end.

Lemma onTimer_quiet s : not_listening s -> onTimer s = s.
Proof.
  unfold not_listening, onTimer. destruct (listening s) as [e|]; [|reflexivity].
  intros ->. reflexivity.
Qed.

Lemma fold_onTimer_quiet {A} (l : list A) s : not_listening s -> fold_left (fun st _ => onTimer st) l s = s.
Proof.
  revert s. induction l as [|x l IH]; intros s Hs; cbn; [reflexivity|].
  rewrite onTimer_quiet by exact Hs. apply IH, Hs.
Qed.

Lemma filter_true {A} (f : A -> bool) l : Forall (fun x => f x = true) l -> List.filter f l = l.
Proof. induction 1 as [|x l Hx _ IH]; cbn; [reflexivity|]. rewrite Hx, IH. reflexivity. Qed.

Lemma filter_false {A} (f : A -> bool) l : Forall (fun x => f x = false) l -> List.filter f l = [].
Proof. induction 1 as [|x l Hx _ IH]; cbn; [reflexivity|]. rewrite Hx, IH. reflexivity. Qed.

Lemma fire_due_quiet now s :
  not_listening s ->
  fire_due now s = {| listening := listening s; timers := List.filter (fun d => negb (d <=? now)%Z) (timers s) |}.
Proof. intros Hs. unfold fire_due. apply fold_onTimer_quiet. exact Hs. Qed.

Lemma fire_due_none now s : Forall (fun d => (now < d)%Z) (timers s) -> fire_due now s = s.
Proof.
  intros H. unfold fire_due.
  rewrite filter_false by (eapply Forall_impl; [exact H|]; intros d Hd; apply Z.leb_gt; exact Hd).
  rewrite filter_true by (eapply Forall_impl; [exact H|]; intros d Hd; cbn; rewrite (proj2 (Z.leb_gt _ _) Hd); reflexivity).
  destruct s; reflexivity.
Qed.

Lemma onFinal_wake now text s :
  not_listening s -> detectWakeWord (trim (lower text)) = true ->
  onFinal now text s =
  ({| listening := Some {| isListening := true; timestamp := now |};
      timers := (timers s ++ [(now + LISTENING_TIMEOUT)%Z])%list |}, [Acknowledge]).
Proof.
  unfold not_listening, onFinal. intros Hs Hw. cbv zeta. rewrite Hw.
  destruct (listening s) as [e|]; [rewrite Hs|]; reflexivity.
Qed.

Lemma onFinal_nowake now text s :
  not_listening s -> detectWakeWord (trim (lower text)) = false -> onFinal now text s = (s, []).
Proof.
  unfold not_listening, onFinal. intros Hs Hw. cbv zeta. rewrite Hw.
  destruct (listening s) as [e|]; [rewrite Hs|]; reflexivity.
Qed.

Lemma onFinal_question now text s t :
  listening s = Some {| isListening := true; timestamp := t |} -> (now - t <= LISTENING_TIMEOUT)%Z ->
  onFinal now text s =
  ({| listening := Some {| isListening := false; timestamp := 0 |}; timers := timers s |},
   [Process (trim (lower text))]).
Proof.
  unfold onFinal. intros Hs Ht. rewrite Hs. cbn [isListening timestamp].
  rewrite Z.gtb_ltb, (proj2 (Z.ltb_ge _ _) Ht). reflexivity.
Qed.



(** the [LISTENING_TIMEOUT] timer of a wake word ends whichever
    listening session is open when it fires, since its check compares the
    stored timestamp with itself. After a wake word at [t0] whose question
    was answered, a second wake word at [t2] (before [t0 + 10000]) opens a
    session that the first timer closes at [t0 + 10000]: an utterance at
    [t3], within 10 s of the second wake word but after [t0 + 10000], is
    not processed. *)
Theorem wake_stale_timer_ends_session s t0 t1 t2 t3 w q w' q' :
  not_listening s ->
  Forall (fun d => (d <= t0)%Z) (timers s) ->
  detectWakeWord (trim (lower w)) = true ->
  detectWakeWord (trim (lower w')) = true ->
  detectWakeWord (trim (lower q')) = false ->
  (t0 < t1 < t2)%Z -> (t2 < t0 + LISTENING_TIMEOUT < t3)%Z -> (t3 < t2 + LISTENING_TIMEOUT)%Z ->
  snd (sim [(t0, w, true); (t1, q, true); (t2, w', true); (t3, q', true)] s)
    = [Acknowledge; Process (trim (lower q)); Acknowledge].
Proof.
  intros Hs Hd Hw Hw' Hq' Ht1 Ht2 Ht3. unfold LISTENING_TIMEOUT in *. cbn [sim].
  rewrite (fire_due_quiet t0 s Hs).
  rewrite filter_false
    by (eapply Forall_impl; [exact Hd|]; intros d Hle; cbn; rewrite (proj2 (Z.leb_le _ _) Hle); reflexivity).
  rewrite (onFinal_wake t0 w) by exact Hw || exact Hs.
  rewrite fire_due_none by (cbn; constructor; [unfold LISTENING_TIMEOUT; lia | constructor]).
  rewrite (onFinal_question t1 q _ t0) by (reflexivity || (unfold LISTENING_TIMEOUT; lia)).
  rewrite fire_due_none by (cbn; constructor; [unfold LISTENING_TIMEOUT; lia | constructor]).
  rewrite (onFinal_wake t2 w') by (exact Hw' || exact I || reflexivity).
  unfold fire_due. cbn [timers listening app List.filter].
  rewrite (proj2 (Z.leb_le (t0 + LISTENING_TIMEOUT) t3)) by (unfold LISTENING_TIMEOUT; lia).
  rewrite (proj2 (Z.leb_gt (t2 + LISTENING_TIMEOUT) t3)) by (unfold LISTENING_TIMEOUT; lia).
  cbn [fold_left negb List.filter].
  rewrite onFinal_nowake by (exact Hq' || (unfold not_listening, onTimer; cbn; rewrite Z.eqb_refl; reflexivity)).
  reflexivity.
Qed.

Lemma wake_stale_timer_ends_session_witness :
  not_listening w_init /\ Forall (fun d => (d <= 0)%Z) (timers w_init) /\
  detectWakeWord (trim (lower "hey mentra")) = true /\
  detectWakeWord (trim (lower "hi mentra")) = true /\
  detectWakeWord (trim (lower "what is this")) = false /\
  (0 < 2000 < 9000)%Z /\ (9000 < 0 + LISTENING_TIMEOUT < 11000)%Z /\ (11000 < 9000 + LISTENING_TIMEOUT)%Z /\
  snd (sim [(0%Z, "hey mentra", true); (2000%Z, "how are you", true); (9000%Z, "hi mentra", true);
            (11000%Z, "what is this", true)] w_init)
    = [Acknowledge; Process (trim (lower "how are you")); Acknowledge].
Proof.
  assert (H1 : not_listening w_init) by reflexivity.
  assert (H2 : Forall (fun d => (d <= 0)%Z) (timers w_init)) by constructor.
  assert (H3 : detectWakeWord (trim (lower "hey mentra")) = true) by (vm_compute; reflexivity).
  assert (H4 : detectWakeWord (trim (lower "hi mentra")) = true) by (vm_compute; reflexivity).
  assert (H5 : detectWakeWord (trim (lower "what is this")) = false) by (vm_compute; reflexivity).
  assert (H6 : (0 < 2000 < 9000)%Z) by lia.
  assert (H7 : (9000 < 0 + LISTENING_TIMEOUT < 11000)%Z) by (unfold LISTENING_TIMEOUT; lia).
  assert (H8 : (11000 < 9000 + LISTENING_TIMEOUT)%Z) by (unfold LISTENING_TIMEOUT; lia).
  do 8 (split; [assumption|]).
  exact (wake_stale_timer_ends_session w_init 0 2000 9000 11000 _ _ _ _ H1 H2 H3 H4 H5 H6 H7 H8).
Defined.

End WakeFacts.


Section LiveBufferFacts.

Import LiveBuffer.







End LiveBufferFacts.


Section ConversationContextFacts.
Import Conversations ConversationContext.

Lemma div_lt_iff (d b k : Z) : (0 < b)%Z -> ((d / b < k)%Z <-> (d < k * b)%Z).
Proof.
  intros Hb. pose proof (Z.div_mod d b ltac:(lia)) as Hd.
  pose proof (Z.mod_pos_bound d b Hb) as Hm. split; intros Hq; nia.
Qed.

Lemma div_ge_to (d b k : Z) : (0 < b)%Z -> (k <= d / b)%Z -> (k * b <= d)%Z.
Proof.
  intros Hb Hk. pose proof (Z.div_mod d b ltac:(lia)) as Hd.
  pose proof (Z.mod_pos_bound d b Hb) as Hm. nia.
Qed.

Lemma div_le_to (d b k : Z) : (0 < b)%Z -> (k * b <= d)%Z -> (k <= d / b)%Z.
Proof. intros Hb Hk. apply Z.div_le_lower_bound; lia. Qed.

Lemma get_app_len (s t : string) : String.get (String.length s) (s ++ t) = String.get 0 t.
Proof. induction s as [|a s IH]; simpl; [reflexivity | exact IH]. Qed.

Lemma suffix_neq (s t w : string) (n : nat) :
  String.length t = 5%nat -> (String.length w - 5)%nat = n ->
  String.get n w <> String.get 0 t -> s ++ t <> w.
Proof.
  intros Ht Hn Hg H. apply Hg. subst w.
  rewrite string_length_app, Ht in Hn. replace n with (String.length s) by lia.
  apply get_app_len.
Qed.

Ltac not_suffix := eapply suffix_neq; [reflexivity | reflexivity | cbn; discriminate].

Theorem getTimeAgo_labels (now ts : Z) :
  (getTimeAgo now ts = "just now" <-> (now - ts < 60000)%Z) /\
  (getTimeAgo now ts = "yesterday" <-> (86400000 <= now - ts < 172800000)%Z) /\
  (getTimeAgo now ts = "over a week ago" <-> (604800000 <= now - ts)%Z).
Proof.
  unfold getTimeAgo. set (d := (now - ts)%Z).
  change (1000 * 60 * 60 * 24)%Z with 86400000%Z.
  change (1000 * 60 * 60)%Z with 3600000%Z.
  change (1000 * 60)%Z with 60000%Z.
  destruct (Z.ltb_spec (d / 60000) 1) as [A|A];
    [apply div_lt_iff in A; [|lia] | apply div_ge_to in A; [|lia]].
  { split; [|split]; split; intros Hq; try reflexivity; try discriminate; lia. }
  destruct (Z.ltb_spec (d / 60000) 60) as [B|B];
    [apply div_lt_iff in B; [|lia] | apply div_ge_to in B; [|lia]].
  { split; [|split]; split; intros Hq; try reflexivity; try (exfalso; revert Hq; not_suffix); lia. }
  destruct (Z.ltb_spec (d / 3600000) 24) as [C|C];
    [apply div_lt_iff in C; [|lia] | apply div_ge_to in C; [|lia]].
  { split; [|split]; split; intros Hq; try reflexivity; try (exfalso; revert Hq; not_suffix); lia. }
  destruct (Z.eqb_spec (d / 86400000) 1) as [E|E].
  { assert (1 <= d / 86400000)%Z as E1 by lia. assert (d / 86400000 < 2)%Z as E2 by lia.
    apply div_ge_to in E1; [|lia]. apply div_lt_iff in E2; [|lia].
    split; [|split]; split; intros Hq; try reflexivity; try discriminate; lia. }
  assert (1 <= d / 86400000)%Z as G1 by (apply div_le_to; lia).
  assert (2 <= d / 86400000)%Z as G2 by lia. apply div_ge_to in G2; [|lia].
  destruct (Z.ltb_spec (d / 86400000) 7) as [F|F];
    [apply div_lt_iff in F; [|lia] | apply div_ge_to in F; [|lia]].
  { split; [|split]; split; intros Hq; try reflexivity; try (exfalso; revert Hq; not_suffix); lia. }
  split; [|split]; split; intros Hq; try reflexivity; try discriminate; lia.
Qed.

Lemma filter_all_excluded (q : string) (l : list ConversationEntry) :
  List.Forall (fun c => question c = q) l ->
  List.filter (fun c => negb (String.eqb (question c) q)) l = [].
Proof.
  induction 1 as [|c l Hc _ IH]; [reflexivity|].
  cbn. rewrite Hc, String.eqb_refl. exact IH.
Qed.

(** [buildConversationContext] takes the five most recent completed
    conversations first and drops those asking the current question
    afterwards: when all of these five (or fewer) ask the current question,
    the prompt says that the conversation is starting, even when older
    completed conversations with other questions exist. *)
Theorem conversation_context_repeated_question clock conv u q :
  q <> "" ->
  List.Forall (fun c => question c = q)
    (firstn 5 (List.filter is_completed (user_conversations conv u))) ->
  buildConversationContext clock conv u (Some q) = start_msg.
Proof.
  intros Hq Hall. unfold buildConversationContext.
  destruct (user_conversations conv u) as [|c l]; [reflexivity|].
  apply String.eqb_neq in Hq. rewrite Hq.
  rewrite (filter_all_excluded q _ Hall). reflexivity.
Qed.

Lemma conversation_context_repeated_question_witness :
  let e := fun q : string =>
    {| id := "1"; timestamp := 0%Z; userId := "u"; question := q; response := "ok";
       hasPhoto := false; photoData := None; processingTime := 0%Z; status := Completed;
       category := None |} in
  let conv : gmap string (list ConversationEntry) :=
    {[ "u" := [e "what is this"; e "what is this"; e "what is this"; e "what is this";
               e "what is this"; e "how do I cook rice"] ]} in
  "what is this" <> "" /\
  List.Forall (fun c => question c = "what is this")
    (firstn 5 (List.filter is_completed (user_conversations conv "u"))) /\
  buildConversationContext (fun _ => 0%Z) conv "u" (Some "what is this") = start_msg.
Proof.
  intros e conv.
  assert (Hq : "what is this" <> "") by discriminate.
  assert (Hall : List.Forall (fun c => question c = "what is this")
    (firstn 5 (List.filter is_completed (user_conversations conv "u"))))
    by (vm_compute; repeat constructor).
  split; [exact Hq | split; [exact Hall |]].
  exact (conversation_context_repeated_question (fun _ => 0%Z) conv "u" "what is this" Hq Hall).
Defined.

End ConversationContextFacts.
